(** * A shallow embedding of the 2-d tree of [src/src/2dtree.cpp]

    Coordinates ([double] in the source) are modelled as exact rationals [Q]:
    the arithmetic is idealised (no rounding).  Wherever the source compares
    Euclidean distances, [std::sqrt] is monotone, so the model compares
    squared distances instead ([sqdist]).  The tolerance of [Point::operator==]
    and [Rect::contains] is [std::numeric_limits<double>::epsilon()] = 2^-52. *)

From Stdlib Require Import QArith Qabs Qminmax List Permutation Lia.
From Stdlib Require Import Lqa.
From Stdlib Require Import Reals.
From Stdlib Require Lra Psatz.
Import ListNotations.

Local Open Scope Q_scope.

(** ** Geometric primitives *)

Record Point := mkPoint { x_coord : Q; y_coord : Q }.

Definition eps : Q := 1 # 4503599627370496.

Definition Qltb (a b : Q) : bool := negb (Qle_bool b a).

(** [Point::operator==]: both coordinate differences below epsilon. *)
Definition point_eq (p q : Point) : bool :=
  Qltb (Qabs (x_coord p - x_coord q)) eps && Qltb (Qabs (y_coord p - y_coord q)) eps.

(** [Point::distance], squared (the source takes [std::sqrt] of this). *)
Definition sqdist (p q : Point) : Q :=
  (x_coord p - x_coord q) * (x_coord p - x_coord q)
  + (y_coord p - y_coord q) * (y_coord p - y_coord q).

Record Rect := mkRect { left_bottom : Point; right_top : Point }.

Definition xmin (r : Rect) : Q := x_coord (left_bottom r).
Definition ymin (r : Rect) : Q := y_coord (left_bottom r).
Definition xmax (r : Rect) : Q := x_coord (right_top r).
Definition ymax (r : Rect) : Q := y_coord (right_top r).

(** [Rect::distance]. *)
Definition rect_distance (r : Rect) (p : Point) : Q :=
  if Qle_bool (xmin r) (x_coord p) && Qle_bool (x_coord p) (xmax r) then
    if Qle_bool (ymin r) (y_coord p) && Qle_bool (y_coord p) (ymax r) then 0
    else Qmin (Qabs (y_coord p - ymin r)) (Qabs (y_coord p - ymax r))
  else Qmin (Qabs (x_coord p - xmin r)) (Qabs (x_coord p - xmax r)).

(** [Rect::contains]. *)
Definition rect_contains (r : Rect) (p : Point) : bool :=
  Qltb (Qabs (rect_distance r p)) eps.

(** ** The tree *)

(** A [kdtree::PointSet::Node]: left child, point, depth, right child.  The
    parent back-reference is not stored: the iterator below walks the tree
    with an explicit path to the root, which is what the weak parent links
    encode. *)
Inductive tree :=
| Leaf
| Node (left : tree) (m_point : Point) (depth : nat) (right : tree).

Record PointSet := mkPointSet {
  max_depth : nat;
  m_root : tree;
  m_size : nat
}.

Definition empty_set : PointSet := mkPointSet 0 Leaf 0.

(** The coordinate a node at [depth] splits on. *)
Definition key (depth : nat) (p : Point) : Q :=
  if Nat.even depth then x_coord p else y_coord p.

(** [PointSet::insert]: returns the new subtree, [max_depth] and [m_size]. *)
Fixpoint insert (point : Point) (node : tree) (depth : nat) (md sz : nat)
  : tree * nat * nat :=
  let md := Nat.max md depth in
  match node with
  | Leaf => (Node Leaf point depth Leaf, md, S sz)
  | Node l q d r =>
      if point_eq q point then (node, md, sz)
      else if Qle_bool (key d point) (key d q) then
        let '(l', md', sz') := insert point l (S depth) md sz in
        (Node l' q d r, md', sz')
      else
        let '(r', md', sz') := insert point r (S depth) md sz in
        (Node l q d r', md', sz')
  end.

(** [m_root = insert(p, m_root, 0)]. *)
Definition insert_root (s : PointSet) (p : Point) : PointSet :=
  let '(t, md, sz) := insert p (m_root s) 0 (max_depth s) (m_size s) in
  mkPointSet md t sz.

(** [PointSet::find]: the node reached, [Leaf] standing for [nullptr]. *)
Fixpoint find (p : Point) (node : tree) : tree :=
  match node with
  | Leaf => Leaf
  | Node l q d r =>
      if point_eq q p then node
      else if Qle_bool (key d p) (key d q) then find p l else find p r
  end.

(** [PointSet::contains]. *)
Definition contains (s : PointSet) (p : Point) : bool :=
  match find p (m_root s) with Leaf => false | Node _ _ _ _ => true end.

(** [PointSet::empty]. *)
Definition empty (s : PointSet) : bool :=
  match m_root s with Leaf => true | Node _ _ _ _ => false end.

(** The points of a tree, in in-order (left, self, right). *)
Fixpoint elements (t : tree) : list Point :=
  match t with
  | Leaf => []
  | Node l q _ r => elements l ++ q :: elements r
  end.

Fixpoint tree_size (t : tree) : nat :=
  match t with
  | Leaf => 0
  | Node l _ _ r => S (tree_size l + tree_size r)
  end.

(** ** Queries that do not iterate *)

(** [PointSet::findPointsInRectangle]: [points] is the result vector,
    [push_back] appends at its end. *)
Fixpoint findPointsInRectangle (node : tree) (points : list Point) (rect : Rect)
  : list Point :=
  match node with
  | Leaf => points
  | Node l q d r =>
      let points := if rect_contains rect q then points ++ [q] else points in
      let toLeft := if Nat.even d then Qle_bool (xmin rect) (x_coord q)
                    else Qle_bool (ymin rect) (y_coord q) in
      let toRight := if Nat.even d then Qle_bool (x_coord q) (xmax rect)
                     else Qle_bool (y_coord q) (ymax rect) in
      let points := if toLeft then findPointsInRectangle l points rect else points in
      if toRight then findPointsInRectangle r points rect else points
  end.

(** [PointSet::range]: the elements of the returned iterator pair. *)
Definition range (s : PointSet) (rect : Rect) : list Point :=
  findPointsInRectangle (m_root s) [] rect.

(** [PointSet::findNeighbour].  [dist < point.distance(closest_found)] and
    [std::abs(delta) >= point.distance(closest_found)] are compared on squares:
    both sides are non-negative. *)
Fixpoint findNeighbour (node : tree) (point closest_found : Point) : Point :=
  match node with
  | Leaf => closest_found
  | Node l q d r =>
      let dist := sqdist q point in
      let closest_found :=
        if Qltb dist (sqdist point closest_found) then q else closest_found in
      if Qeq_bool dist 0 then closest_found
      else
        let delta := if Nat.even d then x_coord q - x_coord point
                     else y_coord q - y_coord point in
        let closest_found :=
          findNeighbour (if Qltb 0 delta then l else r) point closest_found in
        if Qle_bool (sqdist point closest_found) (delta * delta) then closest_found
        else findNeighbour (if Qltb 0 delta then r else l) point closest_found
  end.

(** [PointSet::nearest(point)].  The outer [option] is [None] when the code has
    no defined result: [*m_root->m_point] dereferences a null [m_root] on an
    empty set.  The inner [option] is the returned [std::optional<Point>]. *)
Definition nearest (s : PointSet) (point : Point) : option (option Point) :=
  match m_root s with
  | Leaf => None
  | Node _ q _ _ => Some (Some (findNeighbour (m_root s) point q))
  end.

(** ** Node pointers with parent links

    A non-null [NodePtr] is a node of the tree together with the chain of its
    ancestors up to [m_root]: each frame records whether the node is the left
    or the right child of its parent, and the parent's other fields.  Following
    [parent.lock()] pops a frame; [parent->right == node] holds exactly when
    the top frame is [InRight]; [node == root] holds exactly at the empty path. *)
Inductive frame :=
| InLeft (m_point : Point) (depth : nat) (right : tree)
| InRight (left : tree) (m_point : Point) (depth : nat).

Definition NodePtr := option (tree * list frame).

(** [PointSet::left]. *)
Fixpoint left (node : tree) (up : list frame) : tree * list frame :=
  match node with
  | Node (Node _ _ _ _ as l) q d r => left l (InLeft q d r :: up)
  | _ => (node, up)
  end.

(** The [while] loop of [PointSet::next]: climb while the node is the right
    child of its parent, setting [isRight]. *)
Fixpoint climb (node : tree) (up : list frame) (isRight : bool)
  : tree * list frame * bool :=
  match up with
  | InRight l q d :: up' => climb (Node l q d node) up' true
  | _ => (node, up, isRight)
  end.

(** The point of the node a non-null iterator designates. *)
Definition deref (it : NodePtr) : option Point :=
  match it with
  | Some (Node _ q _ _, _) => Some q
  | _ => None
  end.

(** [node->parent.lock()] together with the node it is the parent of. *)
Definition parent (node : tree) (up : list frame) : NodePtr :=
  match up with
  | InLeft q d r :: up' => Some (Node node q d r, up')
  | InRight l q d :: up' => Some (Node l q d node, up')
  | [] => None
  end.

(** ** Specification-side definitions *)

(** The points an iterator still has to visit: the node itself, its right
    subtree, then for each ancestor it is a left descendant of, that ancestor
    and its right subtree. *)
Fixpoint up_rest (up : list frame) : list Point :=
  match up with
  | [] => []
  | InLeft q _ r :: up => q :: elements r ++ up_rest up
  | InRight _ _ _ :: up => up_rest up
  end.

Definition ptr_rest (it : NodePtr) : list Point :=
  match it with
  | Some (Node _ q _ r, up) => q :: elements r ++ up_rest up
  | _ => []
  end.

(** A non-null iterator designates a node, never an empty child. *)
Definition valid_ptr (it : NodePtr) : Prop :=
  match it with
  | Some (Leaf, _) => False
  | _ => True
  end.

(** The split invariant over stored depths: left subtree [<=], right
    subtree [>] on the node's axis. *)
Fixpoint kd_ordered (t : tree) : Prop :=
  match t with
  | Leaf => True
  | Node l q d r =>
      Forall (fun p => key d p <= key d q) (elements l) /\
      Forall (fun p => key d q < key d p) (elements r) /\
      kd_ordered l /\ kd_ordered r
  end.

(** The stored depth of each node is its depth in the tree. *)
Fixpoint depth_ok (t : tree) (depth : nat) : Prop :=
  match t with
  | Leaf => True
  | Node l _ d r => d = depth /\ depth_ok l (S depth) /\ depth_ok r (S depth)
  end.

(** The split invariant stated with the depth of each node in the tree. *)
Fixpoint split_ok (t : tree) (depth : nat) : Prop :=
  match t with
  | Leaf => True
  | Node l q _ r =>
      Forall (fun p => key depth p <= key depth q) (elements l) /\
      Forall (fun p => key depth q < key depth p) (elements r) /\
      split_ok l (S depth) /\ split_ok r (S depth)
  end.

Fixpoint depth_le (t : tree) (md : nat) : Prop :=
  match t with
  | Leaf => True
  | Node l _ d r => (d <= md)%nat /\ depth_le l md /\ depth_le r md
  end.

(** The invariant of reachable states. *)
Definition wf (s : PointSet) : Prop :=
  depth_ok (m_root s) 0 /\ kd_ordered (m_root s) /\
  depth_le (m_root s) (max_depth s) /\ m_size s = tree_size (m_root s).

(** The closed box [[xmin, xmax] x [ymin, ymax]]. *)
Definition in_box (r : Rect) (p : Point) : Prop :=
  xmin r <= x_coord p <= xmax r /\ ymin r <= y_coord p <= ymax r.

(** One concrete [std::nth_element]: a full (insertion) sort by the
    comparator, which meets the contract of [nth_element] at every index. *)
Fixpoint insert_sorted (cmp : Point -> Point -> bool) (a : Point) (l : list Point)
  : list Point :=
  match l with
  | [] => [a]
  | b :: l' => if cmp b a then b :: insert_sorted cmp a l' else a :: l
  end.

Definition nth_element_sort (cmp : Point -> Point -> bool) (middle : nat)
  (points : list Point) : list Point :=
  fold_right (insert_sorted cmp) [] points.

(** ** Further operators of [Point] and [Rect] *)

(** [Point::operator<]. *)
Definition point_lt (p q : Point) : bool :=
  Qltb (x_coord p) (x_coord q) || Qltb (y_coord p) (y_coord q).

(** [Point::operator!=]. *)
Definition point_ne (p q : Point) : bool := negb (point_eq p q).

(** [Rect::intersects], [r] being [*this]. *)
Definition rect_intersects (r rect : Rect) : bool :=
  Qle_bool ((xmax rect - xmin r) * (xmin rect - xmax r)) 0 &&
  Qle_bool ((ymax rect - ymin r) * (ymin rect - ymax r)) 0.

(** A rectangle whose corners are ordered. *)
Definition rect_ok (r : Rect) : Prop := xmin r <= xmax r /\ ymin r <= ymax r.

(** The tree a node pointer belongs to: the node put back into its ancestors. *)
Fixpoint plug (t : tree) (up : list frame) : tree :=
  match up with
  | [] => t
  | InLeft q d r :: up => plug (Node t q d r) up
  | InRight l q d :: up => plug (Node l q d t) up
  end.

(** [a] is a sub-multiset of [b]. *)
Definition submset (a b : list Point) : Prop := exists e, Permutation (a ++ e) b.

(** The iteration [begin()..end()] of a tree ends when [isRight] happens to be
    true, and otherwise exactly when the root is null or has a right child. *)
Definition iteration_ends (isRight : bool) (t : tree) : Prop :=
  isRight = true \/ match t with Leaf => True | Node _ _ _ r => r <> Leaf end.

(** Half the epsilon of [Point::operator==]. *)
Definition half_eps : Q := 1 # 9007199254740992.

(** The set after [put]s of (0, 0) and (0, 5) into an empty set. *)
Definition two_points : PointSet :=
  insert_root (insert_root empty_set (mkPoint 0 0)) (mkPoint 0 5).

Section PointSetOps.

(** [bool isRight;] in [PointSet::next] is read uninitialised when the loop
    body never runs: its indeterminate value is a parameter of the model. *)
Variable isRight0 : bool.

(** [PointSet::next(root, node)], with [root = m_root]. *)
Definition next (node : NodePtr) : NodePtr :=
  match node with
  | None => None
  | Some (Leaf, _) => None
  | Some ((Node l q d r) as t, up) =>
      match r with
      | Node _ _ _ _ => Some (left r (InRight l q d :: up))
      | Leaf =>
          let '(n, up', isRight) := climb t up isRight0 in
          match up', isRight with
          | [], true => None
          | _, _ =>
              match parent n up' with
              | Some pr => Some pr
              | None => Some (n, up')
              end
          end
      end
  end.

(** [PointSet::begin()]: [left(m_root)]; [end()] is the null iterator. *)
Definition begin (s : PointSet) : NodePtr :=
  match m_root s with
  | Leaf => None
  | t => Some (left t [])
  end.

(** The loop [for (it = begin(); it != end(); it++)] collecting [*it].  The
    loop has no bound of its own; [fuel] counts its steps and [None] means that
    [end()] is not reached within them. *)
Fixpoint iterate (fuel : nat) (it : NodePtr) : option (list Point) :=
  match it with
  | None => Some []
  | Some _ =>
      match fuel with
      | O => None
      | S fuel =>
          match deref it, iterate fuel (next it) with
          | Some q, Some l => Some (q :: l)
          | _, _ => None
          end
      end
  end.

(** The traversal of the whole tree, with one step more than it has nodes. *)
Definition traverse (s : PointSet) : option (list Point) :=
  iterate (S (tree_size (m_root s))) (begin s).

(** [std::nth_element] leaves an unspecified permutation of the range (the
    element at [middle] is the one a sort would put there): it is a parameter,
    of which the proofs only use that it permutes. *)
Variable nth_element : (Point -> Point -> bool) -> nat -> list Point -> list Point.
Hypothesis nth_element_perm :
  forall cmp middle points, Permutation (nth_element cmp middle points) points.

(** The comparator of [buildTree]. *)
Definition axis_less (depth : nat) (lhs rhs : Point) : bool :=
  if Nat.even depth then Qltb (x_coord lhs) (x_coord rhs)
  else Qltb (y_coord lhs) (y_coord rhs).

(** [PointSet::buildTree] on the range [[start, end)], given as its own list
    (the two recursive calls work on disjoint sub-ranges of the vector).  The
    index [middle - start] of [(end + start) / 2] is [(end - start) / 2].
    [fuel] bounds the recursion depth: the length of the range suffices. *)
Fixpoint buildTree (fuel : nat) (ps : PointSet) (points : list Point) (depth : nat)
  : PointSet :=
  match fuel with
  | O => ps
  | S fuel =>
      match points with
      | [] => ps
      | _ :: _ =>
          let middle := (length points / 2)%nat in
          let points := nth_element (axis_less depth) middle points in
          match nth_error points middle with
          | None => ps
          | Some m =>
              let ps := insert_root ps m in
              let ps := buildTree fuel ps (firstn middle points) (S depth) in
              buildTree fuel ps (skipn (S middle) points) (S depth)
          end
      end
  end.

(** [PointSet(filename)] on the points read from the file. *)
Definition construct (points : list Point) : PointSet :=
  buildTree (length points) empty_set points 0.

(** The test [max_depth > 2 * std::log(m_size)] of [reBuild]. *)
Definition needs_rebuild (md sz : nat) : bool :=
  if Rlt_dec (2 * ln (INR sz))%R (INR md) then true else false.

(** [PointSet::reBuild]; [None] when the dump loop does not reach [end()]. *)
Definition reBuild (s : PointSet) : option PointSet :=
  if needs_rebuild (max_depth s) (m_size s) then
    match traverse s with
    | None => None
    | Some points => Some (buildTree (length points) (mkPointSet 0 Leaf 0) points 0)
    end
  else Some s.

(** [PointSet::put]. *)
Definition put (s : PointSet) (p : Point) : option PointSet :=
  reBuild (insert_root s p).

(** The states a program reaches: loading a file, then [put]s. *)
Inductive reachable : PointSet -> Prop :=
| reach_construct : forall points, reachable (construct points)
| reach_put : forall s p s', reachable s -> put s p = Some s' -> reachable s'.


(** Apply [put] to each point in turn. *)
Fixpoint puts (s : PointSet) (ps : list Point) : option PointSet :=
  match ps with
  | [] => Some s
  | p :: ps => match put s p with Some s' => puts s' ps | None => None end
  end.

(** ** k nearest neighbours *)

(** [std::max_element] (the libstdc++ loop) with the comparator
    [lhs.distance(p) <= rhs.distance(p)]: the index of the element kept. *)
Fixpoint max_element_from (l : list Point) (p : Point) (i largest_i : nat)
  (largest : Point) : nat :=
  match l with
  | [] => largest_i
  | q :: l =>
      if Qle_bool (sqdist largest p) (sqdist q p)
      then max_element_from l p (S i) i q
      else max_element_from l p (S i) largest_i largest
  end.

Definition max_element (l : list Point) (p : Point) : nat :=
  match l with
  | [] => O
  | q :: l => max_element_from l p 1 O q
  end.

(** [*max_distanced = *it]. *)
Fixpoint replace_at (i : nat) (x : Point) (l : list Point) : list Point :=
  match l, i with
  | [], _ => []
  | _ :: l, O => x :: l
  | y :: l, S i => y :: replace_at i x l
  end.

(** The body of the loop of [nearest(p, k)] on the visited point [q]. *)
Definition knn_step (p : Point) (k : nat) (neighbours : list Point) (q : Point)
  : list Point :=
  if Nat.ltb (length neighbours) k then neighbours ++ [q]
  else
    let i := max_element neighbours p in
    match nth_error neighbours i with
    | Some m => if Qltb (sqdist q p) (sqdist m p) then replace_at i q neighbours
                else neighbours
    | None => neighbours
    end.

(** The loop of [nearest(p, k)] over the tree iterator, with [fuel] as in
    [iterate]. *)
Fixpoint knn_loop (p : Point) (k : nat) (fuel : nat) (it : NodePtr)
  (neighbours : list Point) : option (list Point) :=
  match it with
  | None => Some neighbours
  | Some _ =>
      match fuel with
      | O => None
      | S fuel =>
          match deref it with
          | Some q => knn_loop p k fuel (next it) (knn_step p k neighbours q)
          | None => None
          end
      end
  end.

(** [PointSet::nearest(p, k)]: the elements of the returned iterator pair.
    For [k >= m_size] the pair is [(begin(), end())] over the tree. *)
Definition nearest_k (s : PointSet) (p : Point) (k : nat) : option (list Point) :=
  if Nat.leb (m_size s) k then traverse s
  else if Nat.eqb k 0 then Some []
  else knn_loop p k (S (tree_size (m_root s))) (begin s) [].

(** ** [rbtree::PointSet]

    [m_set] is a [std::set<Point>]; its contents and order come from the
    library's red-black tree under [Point::operator<] and are not modelled:
    the functions below take the sequence of points that [begin()..end()]
    visits. *)

(** [std::min_element] (the libstdc++ loop) with the comparator
    [a.distance(point) < b.distance(point)], from the element [smallest]. *)
Fixpoint min_element_from (l : list Point) (point smallest : Point) : Point :=
  match l with
  | [] => smallest
  | q :: l =>
      if Qltb (sqdist q point) (sqdist smallest point)
      then min_element_from l point q
      else min_element_from l point smallest
  end.

(** [rbtree::PointSet::nearest(point)]; the outer [None] is the dereference
    of [end()] on an empty set. *)
Definition rb_nearest (elems : list Point) (point : Point) : option (option Point) :=
  match elems with
  | [] => None
  | q :: l => Some (Some (min_element_from l point q))
  end.

(** [rbtree::PointSet::nearest(point, k)]: the elements of the returned pair. *)
Definition rb_nearest_k (elems : list Point) (point : Point) (k : nat) : list Point :=
  if Nat.leb (length elems) k then elems
  else if Nat.eqb k 0 then []
  else fold_left (knn_step point k) elems [].

(** [rbtree::PointSet::range]: the visited points that [Rect::contains]
    accepts, in the order of the iteration. *)
Definition rb_range (elems : list Point) (rect : Rect) : list Point :=
  filter (rect_contains rect) elems.

(** * Proofs *)

Lemma Qltb_iff a b : Qltb a b = true <-> a < b.
Proof.
  unfold Qltb. rewrite Bool.negb_true_iff. split; intro H.
  - apply Qnot_le_lt. intro H'. apply Qle_bool_iff in H'. congruence.
  - destruct (Qle_bool b a) eqn:E; [apply Qle_bool_iff in E; lra | reflexivity].
Qed.

Lemma Qltb_false a b : Qltb a b = false <-> b <= a.
Proof.
  unfold Qltb. rewrite Bool.negb_false_iff. apply Qle_bool_iff.
Qed.

Lemma Qle_bool_false a b : Qle_bool a b = false <-> b < a.
Proof.
  split; intro H.
  - apply Qnot_le_lt. intro H'. apply Qle_bool_iff in H'. congruence.
  - destruct (Qle_bool a b) eqn:E; [apply Qle_bool_iff in E; lra | reflexivity].
Qed.

(** ** The iterator *)

Lemma left_focus t up :
  t <> Leaf ->
  exists q d r up', left t up = (Node Leaf q d r, up') /\
    q :: elements r ++ up_rest up' = elements t ++ up_rest up.
Proof.
  revert up. induction t as [|l IHl q d r IHr]; intros up H; [congruence|].
  destruct l as [|ll lq ld lr].
  - exists q, d, r, up. split; reflexivity.
  - destruct (IHl (InLeft q d r :: up)) as (q' & d' & r' & up' & E & R);
      [discriminate|].
    exists q', d', r', up'. split; [exact E|].
    rewrite R. simpl. rewrite <- !app_assoc. reflexivity.
Qed.

Lemma climb_spec t up b :
  t <> Leaf ->
  let '(n, up', b') := climb t up b in
  n <> Leaf /\ up_rest up' = up_rest up /\
  (match up' with InRight _ _ _ :: _ => False | _ => True end) /\
  ((n, up', b') = (t, up, b) \/ b' = true).
Proof.
  revert t b. induction up as [|[q d r|l q d] up IH]; intros t b Ht; simpl.
  - auto.
  - auto.
  - specialize (IH (Node l q d t) true ltac:(discriminate)).
    destruct (climb (Node l q d t) up true) as [[n up'] b'].
    destruct IH as (Hn & Hr & Hnr & Hc). repeat split; auto.
    right. destruct Hc as [Hc | Hc]; [congruence | exact Hc].
Qed.

Lemma next_spec l q d r up :
  (valid_ptr (next (Some (Node l q d r, up))) /\
   ptr_rest (next (Some (Node l q d r, up))) = elements r ++ up_rest up)
  \/ (isRight0 = false /\ next (Some (Node l q d r, up)) = Some (Node l q d r, up)).
Proof.
  unfold next. destruct r as [|rl rq rd rr].
  - pose proof (climb_spec (Node l q d Leaf) up isRight0 ltac:(discriminate)) as H.
    destruct (climb (Node l q d Leaf) up isRight0) as [[n up'] b'].
    destruct H as (Hn & Hr & Hnr & Hc).
    destruct up' as [|[q' d' r'|l' q' d'] up''].
    + destruct b'.
      * left. simpl. split; [exact I|]. rewrite <- Hr. reflexivity.
      * destruct Hc as [Hc | Hc]; [|discriminate].
        injection Hc as -> <- <-. right. split; reflexivity.
    + left. simpl. split; [exact I|]. rewrite <- Hr. destruct b'; reflexivity.
    + contradiction.
  - destruct (left_focus (Node rl rq rd rr) (InRight l q d :: up))
      as (q' & d' & r' & up' & E & R); [discriminate|].
    rewrite E. left. split; [exact I|]. exact R.
Qed.

Lemma iterate_fixed fuel it :
  next it = it -> it <> None -> iterate fuel it = None.
Proof.
  intros Hf Hn. induction fuel as [|fuel IH]; destruct it as [it|]; try congruence.
  - reflexivity.
  - cbn [iterate]. rewrite Hf, IH. destruct (deref (Some it)); reflexivity.
Qed.

Lemma iterate_sound fuel it l :
  valid_ptr it -> iterate fuel it = Some l -> l = ptr_rest it.
Proof.
  revert it l. induction fuel as [|fuel IH]; intros it l Hv Hi.
  - destruct it; simpl in *; congruence.
  - destruct it as [[t up]|]; [|simpl in *; congruence].
    destruct t as [|tl q d r]; [contradiction|].
    cbn [iterate deref] in Hi.
    destruct (next_spec tl q d r up) as [[Hv' Hr] | [_ Hf]].
    + destruct (iterate fuel (next (Some (Node tl q d r, up)))) as [l'|] eqn:E;
        [|congruence].
      injection Hi as <-. apply IH in E; [|exact Hv']. simpl. rewrite E, Hr. reflexivity.
    + rewrite Hf, iterate_fixed in Hi; [congruence | exact Hf | discriminate].
Qed.

Lemma iterate_complete fuel it :
  isRight0 = true -> valid_ptr it -> (length (ptr_rest it) < fuel)%nat ->
  iterate fuel it = Some (ptr_rest it).
Proof.
  intros Htrue. revert it. induction fuel as [|fuel IH]; intros it Hv Hl; [lia|].
  destruct it as [[t up]|]; [|reflexivity].
  destruct t as [|tl q d r]; [contradiction|].
  cbn [iterate deref].
  destruct (next_spec tl q d r up) as [[Hv' Hr] | [Hf _]]; [|congruence].
  rewrite IH; [| exact Hv' | rewrite Hr; simpl in Hl; lia].
  rewrite Hr. reflexivity.
Qed.

Lemma begin_spec s : valid_ptr (begin s) /\ ptr_rest (begin s) = elements (m_root s).
Proof.
  unfold begin. destruct (m_root s) as [|l q d r] eqn:E.
  - split; [exact I | reflexivity].
  - destruct (left_focus (Node l q d r) [] ltac:(discriminate))
      as (q' & d' & r' & up' & F & R).
    rewrite F. split; [exact I|]. simpl in R |- *. rewrite R, app_nil_r. reflexivity.
Qed.

Lemma elements_length t : length (elements t) = tree_size t.
Proof.
  induction t as [|l IHl q d r IHr]; simpl; [reflexivity|].
  rewrite length_app. simpl. lia.
Qed.

Lemma traverse_sound s l : traverse s = Some l -> l = elements (m_root s).
Proof.
  unfold traverse. intro H. destruct (begin_spec s) as [Hv Hr].
  rewrite <- Hr. exact (iterate_sound _ _ _ Hv H).
Qed.

Lemma traverse_complete s :
  isRight0 = true -> traverse s = Some (elements (m_root s)).
Proof.
  intro Ht. unfold traverse. destruct (begin_spec s) as [Hv Hr].
  rewrite <- Hr. apply iterate_complete; [exact Ht | exact Hv |].
  rewrite Hr, elements_length. lia.
Qed.

(** ** Insertion *)

Lemma point_eq_refl p : point_eq p p = true.
Proof.
  unfold point_eq. apply andb_true_intro. split; apply Qltb_iff;
    rewrite Qabs_pos; unfold eps; lra.
Qed.

Lemma insert_grow p t dep md sz t' md' sz' :
  insert p t dep md sz = (t', md', sz') ->
  (forall x, In x (elements t) -> In x (elements t')) /\
  (forall x, In x (elements t') -> x = p \/ In x (elements t)) /\
  (tree_size t' + sz = tree_size t + sz')%nat /\ (md <= md')%nat.
Proof.
  revert dep md sz t' md' sz'.
  induction t as [|l IHl q d r IHr]; intros dep md sz t' md' sz' H; simpl in H.
  - injection H as <- <- <-. simpl. repeat split; try lia; intuition.
  - destruct (point_eq q p).
    + injection H as <- <- <-. repeat split; auto; lia.
    + destruct (Qle_bool (key d p) (key d q)).
      * destruct (insert p l (S dep) (Nat.max md dep) sz) as [[l' m1] z1] eqn:E.
        injection H as <- <- <-.
        destruct (IHl _ _ _ _ _ _ E) as (H1 & H2 & H3 & H4).
        simpl. repeat split; try lia.
        -- intros x Hx. apply in_app_iff in Hx as [Hx|Hx]; apply in_app_iff; auto.
        -- intros x Hx. apply in_app_iff in Hx as [Hx|Hx].
           ++ destruct (H2 x Hx); [left; auto | right; apply in_app_iff; auto].
           ++ right. apply in_app_iff. auto.
      * destruct (insert p r (S dep) (Nat.max md dep) sz) as [[r' m1] z1] eqn:E.
        injection H as <- <- <-.
        destruct (IHr _ _ _ _ _ _ E) as (H1 & H2 & H3 & H4).
        simpl. repeat split; try lia.
        -- intros x Hx. apply in_app_iff in Hx as [Hx|[Hx|Hx]];
             apply in_app_iff; simpl; auto.
        -- intros x Hx. apply in_app_iff in Hx as [Hx|[Hx|Hx]].
           ++ right. apply in_app_iff. auto.
           ++ right. apply in_app_iff. simpl. auto.
           ++ destruct (H2 x Hx); [left; auto | right; apply in_app_iff; simpl; auto].
Qed.

Lemma find_insert_self p t dep md sz :
  find p (fst (fst (insert p t dep md sz))) <> Leaf.
Proof.
  revert dep md sz. induction t as [|l IHl q d r IHr]; intros dep md sz; simpl.
  - rewrite point_eq_refl. discriminate.
  - destruct (point_eq q p) eqn:Eq; simpl; [rewrite Eq; discriminate|].
    destruct (Qle_bool (key d p) (key d q)) eqn:El.
    + specialize (IHl (S dep) (Nat.max md dep) sz).
      destruct (insert p l (S dep) (Nat.max md dep) sz) as [[l' m1] z1].
      simpl. rewrite Eq, El. exact IHl.
    + specialize (IHr (S dep) (Nat.max md dep) sz).
      destruct (insert p r (S dep) (Nat.max md dep) sz) as [[r' m1] z1].
      simpl. rewrite Eq, El. exact IHr.
Qed.

Lemma find_insert_other x p t dep md sz :
  find x t <> Leaf -> find x (fst (fst (insert p t dep md sz))) <> Leaf.
Proof.
  revert dep md sz. induction t as [|l IHl q d r IHr]; intros dep md sz Hf;
    simpl in *; [congruence|].
  destruct (point_eq q p); [exact Hf|].
  destruct (Qle_bool (key d p) (key d q)).
  - specialize (IHl (S dep) (Nat.max md dep) sz).
    destruct (insert p l (S dep) (Nat.max md dep) sz) as [[l' m1] z1].
    simpl in *. destruct (point_eq q x); [discriminate|].
    destruct (Qle_bool (key d x) (key d q)); auto.
  - specialize (IHr (S dep) (Nat.max md dep) sz).
    destruct (insert p r (S dep) (Nat.max md dep) sz) as [[r' m1] z1].
    simpl in *. destruct (point_eq q x); [discriminate|].
    destruct (Qle_bool (key d x) (key d q)); auto.
Qed.

Lemma insert_found p t dep md sz :
  find p t <> Leaf -> depth_ok t dep -> depth_le t md ->
  insert p t dep md sz = (t, md, sz).
Proof.
  revert dep. induction t as [|l IHl q d r IHr]; intros dep Hf Hd Hm;
    simpl in *; [congruence|].
  destruct Hd as (-> & Hdl & Hdr). destruct Hm as (Hq & Hml & Hmr).
  replace (Nat.max md dep) with md by lia.
  destruct (point_eq q p); [reflexivity|].
  destruct (Qle_bool (key dep p) (key dep q)).
  - rewrite IHl; auto.
  - rewrite IHr; auto.
Qed.

Lemma insert_kd p t dep md sz :
  kd_ordered t -> kd_ordered (fst (fst (insert p t dep md sz))).
Proof.
  revert dep md sz. induction t as [|l IHl q d r IHr]; intros dep md sz H; simpl.
  - repeat split; constructor.
  - destruct H as (Hl & Hr & Hkl & Hkr).
    destruct (point_eq q p); [simpl; auto|].
    destruct (Qle_bool (key d p) (key d q)) eqn:E.
    + specialize (IHl (S dep) (Nat.max md dep) sz Hkl).
      destruct (insert p l (S dep) (Nat.max md dep) sz) as [[l' m1] z1] eqn:Ei.
      destruct (insert_grow _ _ _ _ _ _ _ _ Ei) as (_ & Hin & _).
      simpl in *. repeat split; auto.
      apply Forall_forall. intros x Hx. destruct (Hin x Hx) as [->|Hx'].
      * apply Qle_bool_iff. exact E.
      * rewrite Forall_forall in Hl. auto.
    + specialize (IHr (S dep) (Nat.max md dep) sz Hkr).
      destruct (insert p r (S dep) (Nat.max md dep) sz) as [[r' m1] z1] eqn:Ei.
      destruct (insert_grow _ _ _ _ _ _ _ _ Ei) as (_ & Hin & _).
      simpl in *. repeat split; auto.
      apply Forall_forall. intros x Hx. destruct (Hin x Hx) as [->|Hx'].
      * apply Qle_bool_false. exact E.
      * rewrite Forall_forall in Hr. auto.
Qed.

Lemma insert_depth_ok p t dep md sz :
  depth_ok t dep -> depth_ok (fst (fst (insert p t dep md sz))) dep.
Proof.
  revert dep md sz. induction t as [|l IHl q d r IHr]; intros dep md sz H; simpl.
  - auto.
  - destruct H as (-> & Hl & Hr).
    destruct (point_eq q p); [simpl; auto|].
    destruct (Qle_bool (key dep p) (key dep q)).
    + specialize (IHl (S dep) (Nat.max md dep) sz Hl).
      destruct (insert p l (S dep) (Nat.max md dep) sz) as [[l' m1] z1]. simpl in *. auto.
    + specialize (IHr (S dep) (Nat.max md dep) sz Hr).
      destruct (insert p r (S dep) (Nat.max md dep) sz) as [[r' m1] z1]. simpl in *. auto.
Qed.

Lemma depth_le_mono t a b : depth_le t a -> (a <= b)%nat -> depth_le t b.
Proof.
  induction t as [|l IHl q d r IHr]; simpl; intuition lia.
Qed.

Lemma insert_depth_le p t dep md sz t' md' sz' :
  depth_le t md -> insert p t dep md sz = (t', md', sz') -> depth_le t' md'.
Proof.
  revert dep md sz t' md' sz'.
  induction t as [|l IHl q d r IHr]; intros dep md sz t' md' sz' Hm H; simpl in H.
  - injection H as <- <- <-. simpl. repeat split; auto; lia.
  - destruct Hm as (Hq & Hml & Hmr).
    destruct (point_eq q p).
    + injection H as <- <- <-. simpl. repeat split; try lia;
        eapply depth_le_mono; eauto; lia.
    + destruct (Qle_bool (key d p) (key d q)).
      * destruct (insert p l (S dep) (Nat.max md dep) sz) as [[l' m1] z1] eqn:E.
        injection H as <- <- <-.
        destruct (insert_grow _ _ _ _ _ _ _ _ E) as (_ & _ & _ & Hle).
        simpl. repeat split.
        -- lia.
        -- eapply IHl; [|exact E]. eapply depth_le_mono; eauto; lia.
        -- eapply depth_le_mono; eauto; lia.
      * destruct (insert p r (S dep) (Nat.max md dep) sz) as [[r' m1] z1] eqn:E.
        injection H as <- <- <-.
        destruct (insert_grow _ _ _ _ _ _ _ _ E) as (_ & _ & _ & Hle).
        simpl. repeat split.
        -- lia.
        -- eapply depth_le_mono; eauto; lia.
        -- eapply IHr; [|exact E]. eapply depth_le_mono; eauto; lia.
Qed.

Lemma insert_root_wf s p : wf s -> wf (insert_root s p).
Proof.
  unfold wf, insert_root. intros (Hd & Hk & Hm & Hs).
  pose proof (insert_kd p (m_root s) 0 (max_depth s) (m_size s) Hk) as Hk'.
  pose proof (insert_depth_ok p (m_root s) 0 (max_depth s) (m_size s) Hd) as Hd'.
  destruct (insert p (m_root s) 0 (max_depth s) (m_size s)) as [[t md] sz] eqn:E.
  destruct (insert_grow _ _ _ _ _ _ _ _ E) as (_ & _ & Hsz & _).
  simpl in *. repeat split; auto.
  - eapply insert_depth_le; eauto.
  - lia.
Qed.

Lemma insert_root_elements s p :
  (forall x, In x (elements (m_root s)) -> In x (elements (m_root (insert_root s p)))) /\
  (forall x, In x (elements (m_root (insert_root s p))) ->
             x = p \/ In x (elements (m_root s))).
Proof.
  unfold insert_root.
  destruct (insert p (m_root s) 0 (max_depth s) (m_size s)) as [[t md] sz] eqn:E.
  destruct (insert_grow _ _ _ _ _ _ _ _ E) as (H1 & H2 & _). simpl. auto.
Qed.

Lemma contains_insert_root_self s p : contains (insert_root s p) p = true.
Proof.
  unfold contains, insert_root.
  pose proof (find_insert_self p (m_root s) 0 (max_depth s) (m_size s)) as H.
  destruct (insert p (m_root s) 0 (max_depth s) (m_size s)) as [[t md] sz].
  simpl in *. destruct (find p t); congruence.
Qed.

Lemma contains_insert_root_other s p x :
  contains s x = true -> contains (insert_root s p) x = true.
Proof.
  unfold contains, insert_root. intro H.
  assert (Hf : find x (m_root s) <> Leaf) by (destruct (find x (m_root s)); congruence).
  pose proof (find_insert_other x p (m_root s) 0 (max_depth s) (m_size s) Hf) as H'.
  destruct (insert p (m_root s) 0 (max_depth s) (m_size s)) as [[t md] sz].
  simpl in *. destruct (find x t); congruence.
Qed.

(** ** Building and rebuilding *)

Lemma nth_error_firstn_skipn (l : list Point) n a :
  nth_error l n = Some a -> l = firstn n l ++ a :: skipn (S n) l.
Proof.
  revert n. induction l as [|b l IH]; intros [|n] H; simpl in *; try discriminate.
  - injection H as ->. reflexivity.
  - f_equal. apply IH. exact H.
Qed.

(** [buildTree] inserts the points of its range, in some order, from the root. *)
Lemma buildTree_inserts fuel ps points depth :
  (length points <= fuel)%nat ->
  exists order, Permutation order points /\
    buildTree fuel ps points depth = fold_left insert_root order ps.
Proof.
  revert ps points depth. induction fuel as [|fuel IH]; intros ps points depth Hl.
  - destruct points; simpl in Hl; [|lia]. exists []. split; [constructor | reflexivity].
  - destruct points as [|a rest].
    { exists []. split; [constructor | reflexivity]. }
    cbn [buildTree].
    set (middle := (length (a :: rest) / 2)%nat).
    set (pts := nth_element (axis_less depth) middle (a :: rest)).
    assert (Hp : Permutation pts (a :: rest)) by apply nth_element_perm.
    assert (Hm : (middle < length pts)%nat).
    { rewrite (Permutation_length Hp). unfold middle. apply Nat.div_lt; simpl; lia. }
    destruct (nth_error pts middle) as [m|] eqn:E;
      [| apply nth_error_None in E; lia].
    pose proof (nth_error_firstn_skipn _ _ _ E) as Hsplit.
    pose proof (Permutation_length Hp) as Hlen.
    destruct (IH (insert_root ps m) (firstn middle pts) (S depth)) as (o1 & P1 & B1).
    { rewrite length_firstn. simpl in Hl, Hlen. lia. }
    rewrite B1.
    destruct (IH (fold_left insert_root o1 (insert_root ps m)) (skipn (S middle) pts)
                 (S depth)) as (o2 & P2 & B2).
    { rewrite length_skipn. simpl in Hl, Hlen. lia. }
    rewrite B2. exists (m :: o1 ++ o2). split.
    + transitivity pts; [|exact Hp].
      rewrite Hsplit. apply Permutation_cons_app, Permutation_app; assumption.
    + simpl. rewrite fold_left_app. reflexivity.
Qed.

Lemma fold_insert_wf l s : wf s -> wf (fold_left insert_root l s).
Proof.
  revert s. induction l as [|p l IH]; intros s H; simpl; auto using insert_root_wf.
Qed.

Lemma empty_set_wf : wf empty_set.
Proof. repeat split; simpl; auto. Qed.

Lemma construct_inserts points :
  exists order, Permutation order points /\
    construct points = fold_left insert_root order empty_set.
Proof. apply buildTree_inserts. lia. Qed.

Lemma put_cases s p s' :
  put s p = Some s' ->
  (needs_rebuild (max_depth (insert_root s p)) (m_size (insert_root s p)) = false /\
   s' = insert_root s p) \/
  (needs_rebuild (max_depth (insert_root s p)) (m_size (insert_root s p)) = true /\
   exists order, Permutation order (elements (m_root (insert_root s p))) /\
     s' = fold_left insert_root order empty_set).
Proof.
  unfold put, reBuild. intro H.
  destruct (needs_rebuild _ _) eqn:Et.
  - right. split; [reflexivity|].
    destruct (traverse (insert_root s p)) as [pts|] eqn:Ed; [|discriminate].
    injection H as <-. apply traverse_sound in Ed. subst pts.
    apply buildTree_inserts. lia.
  - left. split; [reflexivity|]. congruence.
Qed.

Lemma reachable_wf s : reachable s -> wf s.
Proof.
  induction 1 as [points | s p s' Hr IH Hp].
  - destruct (construct_inserts points) as (o & _ & ->).
    apply fold_insert_wf, empty_set_wf.
  - destruct (put_cases _ _ _ Hp) as [[_ ->] | [_ (o & _ & ->)]].
    + apply insert_root_wf, IH.
    + apply fold_insert_wf, empty_set_wf.
Qed.

(** ** Membership *)

Lemma kd_split_ok t dep : depth_ok t dep -> kd_ordered t -> split_ok t dep.
Proof.
  revert dep. induction t as [|l IHl q d r IHr]; intros dep Hd Hk; simpl in *; auto.
  destruct Hd as (-> & Hdl & Hdr). destruct Hk as (Hl & Hr & Hkl & Hkr).
  auto.
Qed.

Lemma find_in t p : kd_ordered t -> In p (elements t) -> find p t <> Leaf.
Proof.
  induction t as [|l IHl q d r IHr]; intros Hk Hin; simpl in *; [contradiction|].
  destruct Hk as (Hl & Hr & Hkl & Hkr).
  destruct (point_eq q p) eqn:Eq; [discriminate|].
  apply in_app_iff in Hin as [Hin | [<- | Hin]].
  - rewrite Forall_forall in Hl. specialize (Hl p Hin).
    apply Qle_bool_iff in Hl. rewrite Hl. auto.
  - rewrite point_eq_refl in Eq. discriminate.
  - rewrite Forall_forall in Hr. specialize (Hr p Hin).
    destruct (Qle_bool (key d p) (key d q)) eqn:E; [apply Qle_bool_iff in E; lra|].
    auto.
Qed.

Lemma contains_fold_keep l s p :
  contains s p = true -> contains (fold_left insert_root l s) p = true.
Proof.
  revert s. induction l as [|a l IH]; intros s H; simpl; auto.
  apply IH, contains_insert_root_other, H.
Qed.

Lemma contains_fold_in l s p :
  In p l -> contains (fold_left insert_root l s) p = true.
Proof.
  revert s. induction l as [|a l IH]; intros s H; simpl in *; [contradiction|].
  destruct H as [<- | H]; auto.
  apply contains_fold_keep, contains_insert_root_self.
Qed.

(** ** Range queries *)

Lemma fpir_keep t acc rect p :
  In p acc -> In p (findPointsInRectangle t acc rect).
Proof.
  revert acc. induction t as [|l IHl q d r IHr]; intros acc H; simpl; auto.
  assert (H1 : In p (if rect_contains rect q then acc ++ [q] else acc))
    by (destruct (rect_contains rect q); auto using in_or_app).
  destruct (if Nat.even d then _ else _); destruct (if Nat.even d then _ else _); auto.
Qed.

Lemma fpir_sound t acc rect p :
  In p (findPointsInRectangle t acc rect) ->
  In p acc \/ (In p (elements t) /\ rect_contains rect p = true).
Proof.
  revert acc. induction t as [|l IHl q d r IHr]; intros acc H; simpl in *; auto.
  remember (if Nat.even d then Qle_bool (xmin rect) (x_coord q)
            else Qle_bool (ymin rect) (y_coord q)) as toLeft eqn:EL.
  remember (if Nat.even d then Qle_bool (x_coord q) (xmax rect)
            else Qle_bool (y_coord q) (ymax rect)) as toRight eqn:ER.
  clear EL ER.
  assert (H1 : In p (if rect_contains rect q then acc ++ [q] else acc) ->
               In p acc \/ (p = q /\ rect_contains rect q = true)).
  { intros Hx. destruct (rect_contains rect q); auto.
    apply in_app_iff in Hx as [Hx | [<- | []]]; auto. }
  set (acc1 := if rect_contains rect q then acc ++ [q] else acc) in *.
  assert (H2 : In p (if toLeft then findPointsInRectangle l acc1 rect else acc1) ->
               In p acc \/ (In p (elements l ++ q :: elements r) /\
                            rect_contains rect p = true)).
  { intro Hx. assert (Hx' : In p acc1 \/ (In p (elements l) /\ rect_contains rect p = true))
      by (destruct toLeft; auto).
    destruct Hx' as [Hx' | (Hx' & Hc)].
    - destruct (H1 Hx') as [? | (-> & Hc)]; auto.
      right. split; auto. apply in_or_app. simpl. auto.
    - right. split; auto. apply in_or_app. auto. }
  destruct toRight; auto.
  apply IHr in H as [H | (H & Hc)]; auto.
  right. split; auto. apply in_or_app. simpl. auto.
Qed.

Lemma in_box_contains rect p : in_box rect p -> rect_contains rect p = true.
Proof.
  intros ((Hx1 & Hx2) & (Hy1 & Hy2)). unfold rect_contains, rect_distance.
  apply Qle_bool_iff in Hx1, Hx2, Hy1, Hy2. rewrite Hx1, Hx2, Hy1, Hy2. simpl.
  reflexivity.
Qed.

Lemma fpir_complete t acc rect p :
  kd_ordered t -> In p (elements t) -> in_box rect p ->
  In p (findPointsInRectangle t acc rect).
Proof.
  revert acc. induction t as [|l IHl q d r IHr]; intros acc Hk Hin Hb;
    simpl in *; [contradiction|].
  destruct Hk as (Hl & Hr & Hkl & Hkr).
  apply in_app_iff in Hin as [Hin | [<- | Hin]].
  - rewrite Forall_forall in Hl. specialize (Hl p Hin).
    assert (Ht : (if Nat.even d then Qle_bool (xmin rect) (x_coord q)
                  else Qle_bool (ymin rect) (y_coord q)) = true).
    { unfold key, in_box in *. destruct (Nat.even d); apply Qle_bool_iff; lra. }
    rewrite Ht.
    destruct (if Nat.even d then Qle_bool (x_coord q) (xmax rect)
              else Qle_bool (y_coord q) (ymax rect)); auto using fpir_keep.
  - rewrite (in_box_contains _ _ Hb).
    destruct (if Nat.even d then Qle_bool (xmin rect) (x_coord q)
              else Qle_bool (ymin rect) (y_coord q));
    destruct (if Nat.even d then Qle_bool (x_coord q) (xmax rect)
              else Qle_bool (y_coord q) (ymax rect));
    repeat apply fpir_keep; apply in_or_app; simpl; auto.
  - rewrite Forall_forall in Hr. specialize (Hr p Hin).
    assert (Ht : (if Nat.even d then Qle_bool (x_coord q) (xmax rect)
                  else Qle_bool (y_coord q) (ymax rect)) = true).
    { unfold key, in_box in *. destruct (Nat.even d); apply Qle_bool_iff; lra. }
    rewrite Ht. auto.
Qed.

(** ** Nearest neighbour *)

Lemma sqdist_sym a b : sqdist a b == sqdist b a.
Proof. unfold sqdist. ring. Qed.

Lemma Qsq_nonneg a : 0 <= a * a.
Proof.
  destruct (Qlt_le_dec a 0) as [H | H].
  - setoid_replace (a * a) with ((- a) * (- a)) by ring.
    apply Qmult_le_0_compat; lra.
  - apply Qmult_le_0_compat; lra.
Qed.

Lemma sqdist_nonneg a b : 0 <= sqdist a b.
Proof.
  unfold sqdist. pose proof (Qsq_nonneg (x_coord a - x_coord b)).
  pose proof (Qsq_nonneg (y_coord a - y_coord b)). lra.
Qed.

Lemma sqdist_key d p q : (key d p - key d q) * (key d p - key d q) <= sqdist p q.
Proof.
  unfold sqdist, key. pose proof (Qsq_nonneg (x_coord p - x_coord q)).
  pose proof (Qsq_nonneg (y_coord p - y_coord q)). destruct (Nat.even d); lra.
Qed.

Lemma findNeighbour_spec t q c :
  kd_ordered t ->
  (findNeighbour t q c = c \/ In (findNeighbour t q c) (elements t)) /\
  sqdist (findNeighbour t q c) q <= sqdist c q /\
  (forall p, In p (elements t) -> sqdist (findNeighbour t q c) q <= sqdist p q).
Proof.
  revert c. induction t as [|l IHl m d r IHr]; intros c Hk.
  - simpl. repeat split; [left; reflexivity | lra | intros p []].
  - destruct Hk as (Hl & Hr & Hkl & Hkr).
    rewrite Forall_forall in Hl, Hr.
    cbn [findNeighbour].
    set (c1 := if Qltb (sqdist m q) (sqdist q c) then m else c).
    assert (Hc1 : (c1 = c \/ c1 = m) /\ sqdist c1 q <= sqdist c q /\
                  sqdist c1 q <= sqdist m q).
    { unfold c1. destruct (Qltb (sqdist m q) (sqdist q c)) eqn:E.
      - apply Qltb_iff in E. rewrite (sqdist_sym q c) in E. repeat split; auto; lra.
      - apply Qltb_false in E. rewrite (sqdist_sym q c) in E.
        repeat split; auto; lra. }
    clearbody c1.
    destruct Hc1 as (Hc1 & Hc1c & Hc1m).
    assert (Hin1 : c1 = c \/ In c1 (elements l ++ m :: elements r)).
    { destruct Hc1 as [-> | ->]; [left; reflexivity | right; apply in_or_app; simpl; auto]. }
    simpl elements.
    destruct (Qeq_bool (sqdist m q) 0) eqn:Z.
    + apply Qeq_bool_iff in Z. repeat split; [exact Hin1 | exact Hc1c |].
      intros p _. pose proof (sqdist_nonneg p q). lra.
    + replace (if Nat.even d then x_coord m - x_coord q else y_coord m - y_coord q)
        with (key d m - key d q) by (unfold key; destruct (Nat.even d); reflexivity).
      set (delta := key d m - key d q).
      destruct (Qltb 0 delta) eqn:D.
      * apply Qltb_iff in D.
        destruct (IHl c1 Hkl) as (Hn1 & Hn2 & Hn3).
        set (c2 := findNeighbour l q c1) in *.
        destruct (Qle_bool (sqdist q c2) (delta * delta)) eqn:P.
        -- apply Qle_bool_iff in P. rewrite (sqdist_sym q c2) in P.
           repeat split.
           ++ destruct Hn1 as [-> | Hn1]; [exact Hin1 | right; apply in_or_app; auto].
           ++ lra.
           ++ intros p Hp. apply in_app_iff in Hp as [Hp | [<- | Hp]].
              ** auto.
              ** lra.
              ** specialize (Hr p Hp). pose proof (sqdist_key d p q).
                 assert (delta * delta <= (key d p - key d q) * (key d p - key d q))
                   by (unfold delta in *; nra).
                 lra.
        -- destruct (IHr c2 Hkr) as (Hf1 & Hf2 & Hf3).
           set (c3 := findNeighbour r q c2) in *.
           repeat split.
           ++ destruct Hf1 as [-> | Hf1].
              ** destruct Hn1 as [-> | Hn1]; [exact Hin1 | right; apply in_or_app; auto].
              ** right. apply in_or_app. simpl. auto.
           ++ lra.
           ++ intros p Hp. apply in_app_iff in Hp as [Hp | [<- | Hp]].
              ** specialize (Hn3 p Hp). lra.
              ** lra.
              ** auto.
      * apply Qltb_false in D.
        destruct (IHr c1 Hkr) as (Hn1 & Hn2 & Hn3).
        set (c2 := findNeighbour r q c1) in *.
        destruct (Qle_bool (sqdist q c2) (delta * delta)) eqn:P.
        -- apply Qle_bool_iff in P. rewrite (sqdist_sym q c2) in P.
           repeat split.
           ++ destruct Hn1 as [-> | Hn1];
                [exact Hin1 | right; apply in_or_app; simpl; auto].
           ++ lra.
           ++ intros p Hp. apply in_app_iff in Hp as [Hp | [<- | Hp]].
              ** specialize (Hl p Hp). pose proof (sqdist_key d p q).
                 assert (delta * delta <= (key d p - key d q) * (key d p - key d q))
                   by (unfold delta in *; nra).
                 lra.
              ** lra.
              ** auto.
        -- destruct (IHl c2 Hkl) as (Hf1 & Hf2 & Hf3).
           set (c3 := findNeighbour l q c2) in *.
           repeat split.
           ++ destruct Hf1 as [-> | Hf1].
              ** destruct Hn1 as [-> | Hn1];
                   [exact Hin1 | right; apply in_or_app; simpl; auto].
              ** right. apply in_or_app. auto.
           ++ lra.
           ++ intros p Hp. apply in_app_iff in Hp as [Hp | [<- | Hp]].
              ** auto.
              ** lra.
              ** specialize (Hn3 p Hp). lra.
Qed.

(** ** The loop of [nearest(p, k)] when the iteration ends *)

Lemma knn_loop_complete p k fuel it acc :
  isRight0 = true -> valid_ptr it -> (length (ptr_rest it) < fuel)%nat ->
  knn_loop p k fuel it acc = Some (fold_left (knn_step p k) (ptr_rest it) acc).
Proof.
  intros Htrue. revert it acc. induction fuel as [|fuel IH]; intros it acc Hv Hl; [lia|].
  destruct it as [[t up]|]; [|reflexivity].
  destruct t as [|tl q d r]; [contradiction|].
  cbn [knn_loop deref].
  destruct (next_spec tl q d r up) as [[Hv' Hr] | [Hf _]]; [|congruence].
  rewrite IH; [| exact Hv' | rewrite Hr; simpl in Hl; lia].
  rewrite Hr. reflexivity.
Qed.

(** ** Concrete runs *)

Lemma puts_reachable s ps s' : reachable s -> puts s ps = Some s' -> reachable s'.
Proof.
  revert s. induction ps as [|p ps IH]; intros s Hr H; cbn [puts] in H.
  - congruence.
  - destruct (put s p) as [s1|] eqn:E; [|discriminate].
    exact (IH s1 (reach_put s p s1 Hr E) H).
Qed.

Lemma reachable_empty : reachable empty_set.
Proof. exact (reach_construct []). Qed.

Lemma put_no_rebuild_at s p md sz :
  max_depth (insert_root s p) = md -> m_size (insert_root s p) = sz ->
  needs_rebuild md sz = false -> put s p = Some (insert_root s p).
Proof. intros <- <- H. unfold put, reBuild. rewrite H. reflexivity. Qed.

Lemma puts_cons_no s p ps md sz :
  max_depth (insert_root s p) = md -> m_size (insert_root s p) = sz ->
  needs_rebuild md sz = false -> puts s (p :: ps) = puts (insert_root s p) ps.
Proof.
  intros H1 H2 H3. cbn [puts]. rewrite (put_no_rebuild_at s p md sz H1 H2 H3).
  reflexivity.
Qed.

Lemma put_rebuild_at s p md sz :
  max_depth (insert_root s p) = md -> m_size (insert_root s p) = sz ->
  needs_rebuild md sz = true ->
  put s p = match traverse (insert_root s p) with
            | None => None
            | Some points =>
                Some (buildTree (length points) (mkPointSet 0 Leaf 0) points 0)
            end.
Proof. intros <- <- H. unfold put, reBuild. rewrite H. reflexivity. Qed.

Lemma needs_rebuild_eval md sz md' sz' b :
  md = md' -> sz = sz' -> needs_rebuild md' sz' = b -> needs_rebuild md sz = b.
Proof. intros -> -> H. exact H. Qed.

Lemma iter_next_none n : Nat.iter n next None = None.
Proof. induction n as [|n IH]; simpl; [reflexivity|]. rewrite IH. reflexivity. Qed.

(** The loop of [iterate] never reaches [end()] once [next] reaches a fixed
    point. *)
Lemma iterate_loop n it :
  next (Nat.iter n next it) = Nat.iter n next it -> Nat.iter n next it <> None ->
  forall fuel, iterate fuel it = None.
Proof.
  revert it. induction n as [|n IH]; intros it Hf Hn fuel.
  - exact (iterate_fixed fuel it Hf Hn).
  - rewrite Nat.iter_succ_r in Hf, Hn. destruct it as [it|].
    + destruct fuel as [|fuel]; [reflexivity|]. cbn [iterate].
      rewrite (IH _ Hf Hn fuel). destruct (deref (Some it)); reflexivity.
    + exfalso. apply Hn. exact (iter_next_none n).
Qed.

Lemma knn_loop_loop p k n it :
  next (Nat.iter n next it) = Nat.iter n next it -> Nat.iter n next it <> None ->
  forall fuel neighbours, knn_loop p k fuel it neighbours = None.
Proof.
  revert it. induction n as [|n IH]; intros it Hf Hn fuel.
  - change (Nat.iter 0 next it) with it in Hf, Hn. destruct it as [it|]; [|congruence].
    induction fuel as [|fuel IHf]; intro neighbours; [reflexivity|].
    cbn [knn_loop]. destruct (deref (Some it)); [rewrite Hf; apply IHf | reflexivity].
  - rewrite Nat.iter_succ_r in Hf, Hn. intro neighbours. destruct it as [it|].
    + destruct fuel as [|fuel]; [reflexivity|]. cbn [knn_loop].
      destruct (deref (Some it)); [apply (IH _ Hf Hn) | reflexivity].
    + exfalso. apply Hn. exact (iter_next_none n).
Qed.

(** Values of the rebalance test on the sizes the runs below meet. *)

Lemma ln3_ge_1 : (1 <= ln 3)%R.
Proof.
  rewrite <- (ln_exp 1) at 1.
  destruct (Rle_lt_or_eq_dec _ _ exp_le_3) as [H | H].
  - left. apply ln_increasing; [apply exp_pos | exact H].
  - rewrite H. right. reflexivity.
Qed.

Lemma ln2_lt : (ln 2 < 3 / 4)%R.
Proof.
  assert (He : (1 + 3 / 32 < exp (3 / 32))%R) by (apply exp_ineq1; Lra.lra).
  assert (E : (exp (3 / 4) = exp (3/32) * exp (3/32) * (exp (3/32) * exp (3/32)) *
                             (exp (3/32) * exp (3/32) * (exp (3/32) * exp (3/32))))%R).
  { rewrite <- !exp_plus. f_equal. Lra.lra. }
  assert (H8 : (2 < exp (3 / 4))%R).
  { rewrite E. set (e := exp (3/32)) in *.
    assert (H2 : (1225 / 1024 < e * e)%R) by Psatz.nra.
    assert (H4 : (1500625 / 1048576 < e * e * (e * e))%R) by Psatz.nra.
    Psatz.nra. }
  apply exp_lt_inv. rewrite exp_ln; [exact H8 | Lra.lra].
Qed.

Lemma needs_rebuild_0_1 : needs_rebuild 0 1 = false.
Proof.
  unfold needs_rebuild. destruct Rlt_dec as [H|H]; [|reflexivity].
  simpl in H. rewrite ln_1 in H. Lra.lra.
Qed.

Lemma needs_rebuild_1_2 : needs_rebuild 1 2 = false.
Proof.
  unfold needs_rebuild. destruct Rlt_dec as [H|H]; [|reflexivity].
  replace (INR 2) with 2%R in H by (simpl; Lra.lra). simpl in H.
  pose proof ln_lt_2. Lra.lra.
Qed.

Lemma needs_rebuild_le_3 md : (md <= 2)%nat -> needs_rebuild md 3 = false.
Proof.
  intro Hm. unfold needs_rebuild. destruct Rlt_dec as [H|H]; [|reflexivity].
  replace (INR 3) with 3%R in H by (simpl; Lra.lra).
  apply le_INR in Hm. replace (INR 2) with 2%R in Hm by (simpl; Lra.lra).
  pose proof ln3_ge_1. Lra.lra.
Qed.

Lemma needs_rebuild_3_4 : needs_rebuild 3 4 = true.
Proof.
  unfold needs_rebuild. destruct Rlt_dec as [H|H]; [reflexivity|].
  exfalso. apply H.
  replace (INR 4) with (2 * 2)%R by (simpl; Lra.lra).
  replace (INR 3) with 3%R by (simpl; Lra.lra).
  rewrite ln_mult by Lra.lra. pose proof ln2_lt. Lra.lra.
Qed.

(** * Claims on every reachable state *)

(** C6: in every tree reached by loading a file and [put]s, the depth stored in
    each node is its depth in the tree, and for a node at depth [d] every point
    of its left subtree has its split coordinate ([x] for even [d], [y] for odd
    [d]) at most the node's, every point of its right subtree strictly
    greater. *)
Theorem reachable_split_invariant s :
  reachable s -> depth_ok (m_root s) 0 /\ split_ok (m_root s) 0.
Proof.
  intro H. destruct (reachable_wf s H) as (Hd & Hk & _).
  split; auto using kd_split_ok.
Qed.

(** On a reachable set, [range(R)] returns only stored points [p] with
    [R.contains(p)], and it returns every stored point lying in the closed box
    [[xmin, xmax] x [ymin, ymax]] of [R]. *)
Theorem range_sound_box_complete s rect :
  reachable s ->
  (forall p, In p (range s rect) ->
             In p (elements (m_root s)) /\ rect_contains rect p = true) /\
  (forall p, In p (elements (m_root s)) -> in_box rect p -> In p (range s rect)).
Proof.
  intro H. destruct (reachable_wf s H) as (_ & Hk & _). unfold range. split.
  - intros p Hp. apply fpir_sound in Hp as [[] | Hp]. exact Hp.
  - intros p Hp Hb. apply fpir_complete; auto.
Qed.

(** C3: on a non-empty reachable set, [nearest(q)] returns a stored point
    [p*], and no stored point is strictly closer to [q] than [p*] (distances
    compared through their squares). *)
Theorem nearest_correct s q :
  reachable s -> empty s = false ->
  exists b, nearest s q = Some (Some b) /\ In b (elements (m_root s)) /\
    forall p, In p (elements (m_root s)) -> ~ sqdist p q < sqdist b q.
Proof.
  intros H He. destruct (reachable_wf s H) as (_ & Hk & _).
  unfold nearest, empty in *. destruct (m_root s) as [|l m d r]; [discriminate|].
  destruct (findNeighbour_spec (Node l m d r) q m Hk) as (H1 & _ & H3).
  eexists. split; [reflexivity|]. split.
  - destruct H1 as [-> | H1]; [simpl; apply in_or_app; simpl; auto | exact H1].
  - intros p Hp Hlt. specialize (H3 p Hp). lra.
Qed.

(** C4 (amended): after [put(p)], [contains(p)] holds when that [put] triggers
    no rebuild; [contains(p)] then stays true across [put]s that trigger no
    rebuild; and after any [put], rebuild or not, [contains(p)] holds for every
    point [p] the tree held once the insertion was done. *)
Theorem put_contains s p q s' :
  reachable s ->
  (put s p = Some s' ->
   needs_rebuild (max_depth (insert_root s p)) (m_size (insert_root s p)) = false ->
   contains s' p = true) /\
  (contains s p = true -> put s q = Some s' ->
   needs_rebuild (max_depth (insert_root s q)) (m_size (insert_root s q)) = false ->
   contains s' p = true) /\
  (In p (elements (m_root (insert_root s q))) -> put s q = Some s' ->
   contains s' p = true).
Proof.
  intro Hr. repeat split.
  - intros Hp Ht. destruct (put_cases _ _ _ Hp) as [[_ ->] | [Ht' _]];
      [apply contains_insert_root_self | congruence].
  - intros Hc Hp Ht. destruct (put_cases _ _ _ Hp) as [[_ ->] | [Ht' _]];
      [apply contains_insert_root_other; exact Hc | congruence].
  - intros Hin Hp. destruct (put_cases _ _ _ Hp) as [[_ ->] | [_ (o & Ho & ->)]].
    + destruct (insert_root_wf s q (reachable_wf s Hr)) as (_ & Hk & _).
      unfold contains. pose proof (find_in _ _ Hk Hin) as Hf.
      destruct (find p (m_root (insert_root s q))); congruence.
    + apply contains_fold_in. apply (Permutation_in _ (Permutation_sym Ho)). exact Hin.
Qed.

(** C8 (amended): in every reachable state [size()] is the number of points
    stored in the tree; when [contains(p)] already holds, the insertion done
    by [put(p)] changes nothing, so [put(p)] leaves the state unchanged unless
    the rebalance test fires. *)
Theorem put_existing_point s p :
  reachable s ->
  m_size s = length (elements (m_root s)) /\
  (contains s p = true ->
   insert_root s p = s /\
   (needs_rebuild (max_depth s) (m_size s) = false -> put s p = Some s)).
Proof.
  intro Hr. destruct (reachable_wf s Hr) as (Hd & Hk & Hm & Hs).
  split; [rewrite elements_length; exact Hs|].
  intro Hc.
  assert (Hf : find p (m_root s) <> Leaf)
    by (unfold contains in Hc; destruct (find p (m_root s)); congruence).
  assert (Hi : insert_root s p = s).
  { unfold insert_root.
    rewrite (insert_found p (m_root s) 0 (max_depth s) (m_size s) Hf Hd Hm).
    destruct s; reflexivity. }
  split; [exact Hi|]. intro Ht. unfold put. rewrite Hi. unfold reBuild.
  rewrite Ht. reflexivity.
Qed.

End PointSetOps.

(** * Concrete runs

    [nth_element_sort] is a legitimate [std::nth_element]: a sorted
    permutation puts at [middle] the element a sort puts there, with no larger
    element before it and no smaller one after it. *)

Lemma insert_sorted_perm cmp a l : Permutation (insert_sorted cmp a l) (a :: l).
Proof.
  induction l as [|b l IH]; simpl; [reflexivity|].
  destruct (cmp b a); [|reflexivity].
  rewrite IH. apply perm_swap.
Qed.

Lemma nth_element_sort_perm cmp middle points :
  Permutation (nth_element_sort cmp middle points) points.
Proof.
  unfold nth_element_sort. induction points as [|a l IH]; simpl; [reflexivity|].
  rewrite insert_sorted_perm, IH. reflexivity.
Qed.

Lemma two_points_run b nth :
  puts b nth empty_set [mkPoint 0 0; mkPoint 0 5] = Some two_points.
Proof. rewrite (puts_cons_no _ _ _ _ _ 0%nat 1%nat) by first [exact needs_rebuild_0_1 | vm_compute; reflexivity]. rewrite (puts_cons_no _ _ _ _ _ 1%nat 2%nat) by first [exact needs_rebuild_1_2 | vm_compute; reflexivity]. reflexivity. Qed.

Lemma two_points_reachable b nth : reachable b nth two_points.
Proof. exact (puts_reachable _ _ _ _ _ (reachable_empty _ _) (two_points_run b nth)). Qed.

(** C1 (code bug): [nearest(q)] never returns the absent value; on the empty
    set, which loading an empty file reaches, it dereferences the null root. *)
Theorem nearest_empty_null (b : bool) nth q :
  reachable b nth empty_set /\ empty empty_set = true /\
  nearest empty_set q = None /\ forall s, nearest s q <> Some None.
Proof.
  split; [exact (reachable_empty b nth)|]. split; [reflexivity|].
  split; [reflexivity|]. intros s. unfold nearest. destruct (m_root s); discriminate.
Qed.

(** C5 (code bug): after the [put]s of (3, 0), (2, 0), (1, 0), the [put] of
    (0, 0) fires the rebuild ([max_depth = 3 > 2 ln 4]); when the uninitialised
    [isRight] of [next] is false, the dump loop never reaches [end()], so the
    rebuild never completes. *)
Theorem rebuild_dump_loops :
  exists s, puts false nth_element_sort empty_set
              [mkPoint 3 0; mkPoint 2 0; mkPoint 1 0] = Some s /\
    needs_rebuild (max_depth (insert_root s (mkPoint 0 0)))
                  (m_size (insert_root s (mkPoint 0 0))) = true /\
    (forall fuel, iterate false fuel (begin (insert_root s (mkPoint 0 0))) = None) /\
    put false nth_element_sort s (mkPoint 0 0) = None.
Proof.
  eexists. split.
  { rewrite (puts_cons_no _ _ _ _ _ 0%nat 1%nat) by first [exact needs_rebuild_0_1 | vm_compute; reflexivity]. rewrite (puts_cons_no _ _ _ _ _ 1%nat 2%nat) by first [exact needs_rebuild_1_2 | vm_compute; reflexivity].
    rewrite (puts_cons_no _ _ _ _ _ 2%nat 3%nat) by first [exact (needs_rebuild_le_3 2 ltac:(lia)) | vm_compute; reflexivity]. reflexivity. }
  split; [apply (needs_rebuild_eval _ _ 3 4);
          [vm_compute; reflexivity | vm_compute; reflexivity | exact needs_rebuild_3_4]|].
  split.
  - apply (iterate_loop false 4); vm_compute; first [reflexivity | discriminate].
  - rewrite (put_rebuild_at _ _ _ _ 3 4);
      [vm_compute; reflexivity | vm_compute; reflexivity | vm_compute; reflexivity |
       exact needs_rebuild_3_4].
Qed.

(** C7 (code bug): on the one-point set reached by [put] of (0, 0), when the
    uninitialised [isRight] of [next] is false, [++begin()] is [begin()] itself,
    so the iteration never reaches [end()]; when it is true the iteration
    yields the point. *)
Theorem iterator_one_point_loops :
  let s := insert_root empty_set (mkPoint 0 0) in
  put false nth_element_sort empty_set (mkPoint 0 0) = Some s /\
  next false (begin s) = begin s /\ begin s <> None /\
  (forall fuel, iterate false fuel (begin s) = None) /\
  traverse true s = Some [mkPoint 0 0].
Proof.
  intro s. split.
  { apply (put_no_rebuild_at _ _ _ _ 0 1);
      [vm_compute; reflexivity | vm_compute; reflexivity | exact needs_rebuild_0_1]. }
  split; [vm_compute; reflexivity|]. split; [vm_compute; discriminate|].
  split; [|vm_compute; reflexivity].
  apply (iterate_loop false 0); vm_compute; first [reflexivity | discriminate].
Qed.

(** C9 (code bug): after the [put]s of (1, 0) and (0, 0), [nearest((0, 0), 1)]
    walks the tree iterator; when the uninitialised [isRight] of [next] is
    false that walk never ends, whatever its bound; when it is true the
    result is the nearest point. *)
Theorem nearest_k_loops :
  exists s, puts false nth_element_sort empty_set [mkPoint 1 0; mkPoint 0 0] = Some s /\
    (forall fuel neighbours,
       knn_loop false (mkPoint 0 0) 1 fuel (begin s) neighbours = None) /\
    nearest_k false s (mkPoint 0 0) 1 = None /\
    nearest_k true s (mkPoint 0 0) 1 = Some [mkPoint 0 0].
Proof.
  eexists. split.
  { rewrite (puts_cons_no _ _ _ _ _ 0%nat 1%nat) by first [exact needs_rebuild_0_1 | vm_compute; reflexivity]. rewrite (puts_cons_no _ _ _ _ _ 1%nat 2%nat) by first [exact needs_rebuild_1_2 | vm_compute; reflexivity].
    reflexivity. }
  split; [|split; vm_compute; reflexivity].
  apply (knn_loop_loop false _ _ 1); vm_compute; first [reflexivity | discriminate].
Qed.


(** ** Counterexamples *)

(** C2: after the [put]s of (0, 0) and (0, 5), the rectangle from (eps/2, 0)
    to (10, 10) contains (0, 5) by [Rect::contains], and [rbtree::range] over
    the same points returns it, but [kdtree::range] prunes the left subtree
    that holds it: the pruning compares coordinates exactly, without the
    tolerance of [Rect::contains]. *)
Lemma range_misses_contained_point :
  puts true nth_element_sort empty_set [mkPoint 0 0; mkPoint 0 5] = Some two_points /\
  reachable true nth_element_sort two_points /\
  In (mkPoint 0 5) (elements (m_root two_points)) /\
  rect_contains (mkRect (mkPoint half_eps 0) (mkPoint 10 10)) (mkPoint 0 5) = true /\
  In (mkPoint 0 5)
    (rb_range (elements (m_root two_points)) (mkRect (mkPoint half_eps 0) (mkPoint 10 10))) /\
  ~ In (mkPoint 0 5) (range two_points (mkRect (mkPoint half_eps 0) (mkPoint 10 10))).
Proof.
  split; [exact (two_points_run _ _)|]. split; [exact (two_points_reachable _ _)|].
  split; [vm_compute; left; reflexivity|]. split; [vm_compute; reflexivity|].
  split; [vm_compute; left; reflexivity|].
  vm_compute. intros [E|[]]. discriminate E.
Qed.

(** Against C4 as stated: (eps/2, 0) is [put] after (0, 0) and skipped as its
    epsilon-duplicate; [contains((eps/2, 0))] holds then, but after the [put]s of
    (eps/8, 1), (eps/4, 2) and (1, 3), the last of which rebuilds the tree,
    it fails. *)
Lemma contains_lost_after_rebuild :
  exists s2 s5,
    puts true nth_element_sort empty_set [mkPoint 0 0; mkPoint half_eps 0] = Some s2 /\
    contains s2 (mkPoint half_eps 0) = true /\
    puts true nth_element_sort s2
      [mkPoint (half_eps / 4) 1; mkPoint (half_eps / 2) 2; mkPoint 1 3] = Some s5 /\
    contains s5 (mkPoint half_eps 0) = false.
Proof.
  eexists. eexists. split.
  { rewrite (puts_cons_no _ _ _ _ _ 0%nat 1%nat) by first [exact needs_rebuild_0_1 | vm_compute; reflexivity]. rewrite (puts_cons_no _ _ _ _ _ 0%nat 1%nat) by first [exact needs_rebuild_0_1 | vm_compute; reflexivity].
    reflexivity. }
  split; [vm_compute; reflexivity|]. split.
  { rewrite (puts_cons_no _ _ _ _ _ 1%nat 2%nat) by first [exact needs_rebuild_1_2 | vm_compute; reflexivity].
    rewrite (puts_cons_no _ _ _ _ _ 2%nat 3%nat) by first [exact (needs_rebuild_le_3 2 ltac:(lia)) | vm_compute; reflexivity].
    cbn [puts].
    rewrite (put_rebuild_at _ _ _ _ 3 4);
      [| vm_compute; reflexivity | vm_compute; reflexivity | exact needs_rebuild_3_4].
    rewrite (traverse_complete true _ eq_refl). cbn [puts]. reflexivity. }
  vm_compute. reflexivity.
Qed.

(** Against C8 as stated: after the [put]s of (0, 0) and (-eps/4, 10), the
    point (eps/4, 10) is epsilon-equal to (-eps/4, 10), yet its [put] inserts
    it (it is not on its search path) and the size grows from 2 to 3. *)
Lemma put_epsilon_duplicate_grows :
  exists s2 s3,
    puts true nth_element_sort empty_set
      [mkPoint 0 0; mkPoint (- (half_eps / 2)) 10] = Some s2 /\
    point_eq (mkPoint (- (half_eps / 2)) 10) (mkPoint (half_eps / 2) 10) = true /\
    contains s2 (mkPoint (half_eps / 2) 10) = false /\
    put true nth_element_sort s2 (mkPoint (half_eps / 2) 10) = Some s3 /\
    m_size s2 = 2%nat /\ m_size s3 = 3%nat.
Proof.
  eexists. eexists. split.
  { rewrite (puts_cons_no _ _ _ _ _ 0%nat 1%nat) by first [exact needs_rebuild_0_1 | vm_compute; reflexivity]. rewrite (puts_cons_no _ _ _ _ _ 1%nat 2%nat) by first [exact needs_rebuild_1_2 | vm_compute; reflexivity].
    reflexivity. }
  split; [vm_compute; reflexivity|]. split; [vm_compute; reflexivity|].
  split.
  { apply (put_no_rebuild_at _ _ _ _ 1 3);
      [vm_compute; reflexivity | vm_compute; reflexivity |
       exact (needs_rebuild_le_3 1 ltac:(lia))]. }
  split; vm_compute; reflexivity.
Qed.

(** ** Witnesses *)

Lemma range_sound_box_complete_witness :
  reachable true nth_element_sort two_points /\
  (forall p, In p (range two_points (mkRect (mkPoint 0 0) (mkPoint 10 10))) ->
     In p (elements (m_root two_points)) /\
     rect_contains (mkRect (mkPoint 0 0) (mkPoint 10 10)) p = true) /\
  (forall p, In p (elements (m_root two_points)) ->
     in_box (mkRect (mkPoint 0 0) (mkPoint 10 10)) p ->
     In p (range two_points (mkRect (mkPoint 0 0) (mkPoint 10 10)))).
Proof.
  split; [exact (two_points_reachable _ _)|].
  exact (range_sound_box_complete true nth_element_sort nth_element_sort_perm
           two_points _ (two_points_reachable _ _)).
Defined.

Lemma nearest_correct_witness :
  reachable true nth_element_sort two_points /\ empty two_points = false /\
  exists b, nearest two_points (mkPoint 1 4) = Some (Some b) /\
    In b (elements (m_root two_points)) /\
    forall p, In p (elements (m_root two_points)) ->
      ~ sqdist p (mkPoint 1 4) < sqdist b (mkPoint 1 4).
Proof.
  split; [exact (two_points_reachable _ _)|]. split; [vm_compute; reflexivity|].
  exact (nearest_correct true nth_element_sort nth_element_sort_perm two_points _
           (two_points_reachable _ _) ltac:(vm_compute; reflexivity)).
Defined.

Lemma put_contains_witness :
  reachable true nth_element_sort two_points /\
  put true nth_element_sort two_points (mkPoint 1 1) =
    Some (insert_root two_points (mkPoint 1 1)) /\
  needs_rebuild (max_depth (insert_root two_points (mkPoint 1 1)))
                (m_size (insert_root two_points (mkPoint 1 1))) = false /\
  contains two_points (mkPoint 0 5) = true /\
  In (mkPoint 0 0) (elements (m_root (insert_root two_points (mkPoint 1 1)))) /\
  contains (insert_root two_points (mkPoint 1 1)) (mkPoint 1 1) = true /\
  contains (insert_root two_points (mkPoint 1 1)) (mkPoint 0 5) = true /\
  contains (insert_root two_points (mkPoint 1 1)) (mkPoint 0 0) = true.
Proof.
  pose proof (two_points_reachable true nth_element_sort) as Hr.
  assert (Hn : needs_rebuild (max_depth (insert_root two_points (mkPoint 1 1)))
                 (m_size (insert_root two_points (mkPoint 1 1))) = false).
  { replace (max_depth (insert_root two_points (mkPoint 1 1))) with 1%nat
      by (vm_compute; reflexivity).
    replace (m_size (insert_root two_points (mkPoint 1 1))) with 3%nat
      by (vm_compute; reflexivity).
    exact (needs_rebuild_le_3 1 ltac:(lia)). }
  assert (Hp : put true nth_element_sort two_points (mkPoint 1 1) =
                 Some (insert_root two_points (mkPoint 1 1)))
    by (apply (put_no_rebuild_at _ _ _ _ 1 3);
        [vm_compute; reflexivity | vm_compute; reflexivity |
         exact (needs_rebuild_le_3 1 ltac:(lia))]).
  assert (Hc : contains two_points (mkPoint 0 5) = true) by (vm_compute; reflexivity).
  assert (Hi : In (mkPoint 0 0) (elements (m_root (insert_root two_points (mkPoint 1 1))))).
  { replace (elements (m_root (insert_root two_points (mkPoint 1 1))))
      with [mkPoint 0 5; mkPoint 0 0; mkPoint 1 1] by (vm_compute; reflexivity).
    right. left. reflexivity. }
  destruct (put_contains true nth_element_sort nth_element_sort_perm two_points
              (mkPoint 1 1) (mkPoint 1 1) (insert_root two_points (mkPoint 1 1)) Hr) as (H1 & _ & _).
  destruct (put_contains true nth_element_sort nth_element_sort_perm two_points
              (mkPoint 0 5) (mkPoint 1 1) (insert_root two_points (mkPoint 1 1)) Hr) as (_ & H2 & _).
  destruct (put_contains true nth_element_sort nth_element_sort_perm two_points
              (mkPoint 0 0) (mkPoint 1 1) (insert_root two_points (mkPoint 1 1)) Hr) as (_ & _ & H3).
  split; [exact Hr|]. split; [exact Hp|]. split; [exact Hn|]. split; [exact Hc|].
  split; [exact Hi|]. split; [exact (H1 Hp Hn)|]. split; [exact (H2 Hc Hp Hn)|].
  exact (H3 Hi Hp).
Defined.

Lemma reachable_split_invariant_witness :
  reachable true nth_element_sort two_points /\
  depth_ok (m_root two_points) 0 /\ split_ok (m_root two_points) 0.
Proof.
  split; [exact (two_points_reachable _ _)|].
  exact (reachable_split_invariant true nth_element_sort nth_element_sort_perm
           two_points (two_points_reachable _ _)).
Defined.

Lemma put_existing_point_witness :
  reachable true nth_element_sort two_points /\
  m_size two_points = length (elements (m_root two_points)) /\
  (contains two_points (mkPoint 0 5) = true ->
   insert_root two_points (mkPoint 0 5) = two_points /\
   (needs_rebuild (max_depth two_points) (m_size two_points) = false ->
    put true nth_element_sort two_points (mkPoint 0 5) = Some two_points)).
Proof.
  split; [exact (two_points_reachable _ _)|].
  exact (put_existing_point true nth_element_sort nth_element_sort_perm two_points _
           (two_points_reachable _ _)).
Defined.


(** * Further properties of the code *)

(** ** [Point] comparisons *)

Lemma Qle_bool_compat a b c : a == b -> Qle_bool a c = Qle_bool b c.
Proof.
  intro E. destruct (Qle_bool a c) eqn:E1, (Qle_bool b c) eqn:E2; try reflexivity.
  - apply Qle_bool_iff in E1. apply Qle_bool_false in E2. lra.
  - apply Qle_bool_false in E1. apply Qle_bool_iff in E2. lra.
Qed.

(** [Point::operator<] is irreflexive, but two points each of which is below the
    other in one coordinate are each [<] the other: it is no strict weak
    ordering, the contract of the [std::set<Point>] of [rbtree::PointSet]. *)
Theorem point_lt_not_asymmetric p q :
  point_lt p p = false /\
  (point_lt p q && point_lt q p = true <->
   (x_coord p < x_coord q /\ y_coord q < y_coord p) \/
   (x_coord q < x_coord p /\ y_coord p < y_coord q)).
Proof.
  unfold point_lt. split.
  - apply orb_false_iff. rewrite !Qltb_false. split; apply Qle_refl.
  - destruct (Qltb (x_coord p) (x_coord q)) eqn:E1,
             (Qltb (y_coord p) (y_coord q)) eqn:E2,
             (Qltb (x_coord q) (x_coord p)) eqn:E3,
             (Qltb (y_coord q) (y_coord p)) eqn:E4;
      rewrite ?Qltb_iff, ?Qltb_false in *; simpl; split; intro H;
      try reflexivity; try discriminate; lra.
Qed.

(** [Point::operator==] is reflexive and symmetric, [operator!=] is its
    negation, and [==] is not transitive: (0, 0) == (3 eps / 4, 0) ==
    (3 eps / 2, 0), yet (0, 0) != (3 eps / 2, 0). *)
Theorem point_eq_refl_sym_not_trans p q :
  point_eq p p = true /\ point_eq p q = point_eq q p /\
  point_ne p q = negb (point_eq q p) /\
  point_eq (mkPoint 0 0) (mkPoint (3 * eps / 4) 0) = true /\
  point_eq (mkPoint (3 * eps / 4) 0) (mkPoint (3 * eps / 2) 0) = true /\
  point_ne (mkPoint 0 0) (mkPoint (3 * eps / 2) 0) = true.
Proof.
  assert (Hs : point_eq p q = point_eq q p).
  { unfold point_eq.
    rewrite (Qabs_Qminus (x_coord p)), (Qabs_Qminus (y_coord p)). reflexivity. }
  split; [apply point_eq_refl|]. split; [exact Hs|].
  split; [unfold point_ne; rewrite Hs; reflexivity|].
  split; [vm_compute; reflexivity|]. split; vm_compute; reflexivity.
Qed.

(** ** [Rect::intersects] *)

Lemma interval_overlap a1 a2 b1 b2 :
  a1 <= a2 -> b1 <= b2 -> ((a2 - b1) * (a1 - b2) <= 0 <-> a1 <= b2 /\ b1 <= a2).
Proof.
  intros Ha Hb. split.
  - intro H. destruct (Qlt_le_dec b2 a1) as [H1|H1].
    + exfalso. assert (0 < (a2 - b1) * (a1 - b2)) by (apply Qmult_lt_0_compat; lra).
      lra.
    + split; [exact H1|]. destruct (Qlt_le_dec a2 b1) as [H2|H2]; [|exact H2].
      exfalso. assert (E : (a2 - b1) * (a1 - b2) == (b1 - a2) * (b2 - a1)) by ring.
      assert (0 < (b1 - a2) * (b2 - a1)) by (apply Qmult_lt_0_compat; lra). lra.
  - intros [H1 H2].
    assert (E : (a2 - b1) * (a1 - b2) == - ((a2 - b1) * (b2 - a1))) by ring.
    assert (0 <= (a2 - b1) * (b2 - a1)) by (apply Qmult_le_0_compat; lra). lra.
Qed.

(** [Rect::intersects] is symmetric, and on rectangles with ordered corners it
    holds exactly when the two closed rectangles share a point. *)
Theorem rect_intersects_iff_common_point r r' :
  rect_intersects r r' = rect_intersects r' r /\
  (rect_ok r -> rect_ok r' ->
   (rect_intersects r r' = true <-> exists p, in_box r p /\ in_box r' p)).
Proof.
  split.
  - unfold rect_intersects.
    rewrite (Qle_bool_compat ((xmax r' - xmin r) * (xmin r' - xmax r))
                             ((xmax r - xmin r') * (xmin r - xmax r'))) by ring.
    rewrite (Qle_bool_compat ((ymax r' - ymin r) * (ymin r' - ymax r))
                             ((ymax r - ymin r') * (ymin r - ymax r'))) by ring.
    reflexivity.
  - intros [Hx Hy] [Hx' Hy']. unfold rect_intersects.
    rewrite andb_true_iff, !Qle_bool_iff.
    rewrite (interval_overlap _ _ _ _ Hx' Hx), (interval_overlap _ _ _ _ Hy' Hy).
    unfold in_box. split.
    + intros [[H1 H2] [H3 H4]].
      exists (mkPoint (Qmax (xmin r) (xmin r')) (Qmax (ymin r) (ymin r'))).
      cbn [x_coord y_coord].
      repeat split;
        first [apply Q.le_max_l | apply Q.le_max_r | apply Q.max_lub; assumption].
    + intros (p & ((A1 & A2) & (A3 & A4)) & ((B1 & B2) & (B3 & B4))).
      repeat split; lra.
Qed.

(** ** Building, size and emptiness of [kdtree::PointSet] *)

Lemma insert_fresh p t dep md sz t' md' sz' :
  (forall x, In x (elements t) -> point_eq x p = false) ->
  insert p t dep md sz = (t', md', sz') -> sz' = S sz.
Proof.
  revert dep md sz t' md' sz'.
  induction t as [|l IHl q d r IHr]; intros dep md sz t' md' sz' Hf H; simpl in H.
  - congruence.
  - rewrite (Hf q) in H by (simpl; apply in_or_app; simpl; auto).
    destruct (Qle_bool (key d p) (key d q)).
    + destruct (insert p l (S dep) (Nat.max md dep) sz) as [[l' m1] z1] eqn:E.
      injection H as _ _ <-. apply (IHl _ _ _ _ _ _ (fun x Hx => Hf x ltac:(simpl; apply in_or_app; auto)) E).
    + destruct (insert p r (S dep) (Nat.max md dep) sz) as [[r' m1] z1] eqn:E.
      injection H as _ _ <-.
      apply (IHr _ _ _ _ _ _ (fun x Hx => Hf x ltac:(simpl; apply in_or_app; simpl; auto)) E).
Qed.

Lemma insert_root_size_fresh s p :
  (forall x, In x (elements (m_root s)) -> point_eq x p = false) ->
  m_size (insert_root s p) = S (m_size s).
Proof.
  intro Hf. unfold insert_root.
  destruct (insert p (m_root s) 0 (max_depth s) (m_size s)) as [[t md] sz] eqn:E.
  exact (insert_fresh _ _ _ _ _ _ _ _ Hf E).
Qed.

Lemma fold_size_fresh order s :
  ForallOrdPairs (fun a b => point_eq a b = false) order ->
  (forall x y, In x (elements (m_root s)) -> In y order -> point_eq x y = false) ->
  m_size (fold_left insert_root order s) = (m_size s + length order)%nat.
Proof.
  revert s. induction order as [|a order IH]; intros s Hp Hs; simpl; [lia|].
  inversion Hp as [|a' order' Ha Hrest]; subst.
  rewrite IH; [| exact Hrest |].
  - rewrite insert_root_size_fresh; [lia|]. intros x Hx. apply Hs; simpl; auto.
  - intros x y Hx Hy. destruct (proj2 (insert_root_elements s a) x Hx) as [-> | Hx'].
    + rewrite Forall_forall in Ha. exact (Ha y Hy).
    + apply Hs; simpl; auto.
Qed.

Lemma nodup_ordpairs points :
  NoDup points ->
  (forall a b, In a points -> In b points -> a <> b -> point_eq a b = false) ->
  ForallOrdPairs (fun a b => point_eq a b = false) points.
Proof.
  induction points as [|a l IH]; intros Hn H; constructor.
  - apply NoDup_cons_iff in Hn as [Ha _]. apply Forall_forall. intros y Hy.
    apply H; simpl; auto. intros ->. contradiction.
  - apply NoDup_cons_iff in Hn as [_ Hn]. apply IH; [exact Hn|].
    intros x y Hx Hy. apply H; simpl; auto.
Qed.

(** On every reachable state, [empty()] (a null root) holds exactly when
    [size()] is 0. *)
Theorem empty_iff_size_zero b nth
  (Hnth : forall cmp middle points, Permutation (nth cmp middle points) points) s :
  reachable b nth s -> (empty s = true <-> m_size s = 0%nat).
Proof.
  intro H. destruct (reachable_wf b nth Hnth s H) as (_ & _ & _ & Hs).
  unfold empty. rewrite Hs. destruct (m_root s) as [|l q d r]; simpl;
    split; intro; first [reflexivity | discriminate].
Qed.

(** The set loaded from a file contains every point read, and when the points
    read are distinct and no two are epsilon-equal, its [size()] is their
    number. *)
Theorem construct_contains_and_size nth
  (Hnth : forall cmp middle points, Permutation (nth cmp middle points) points)
  points :
  (forall p, In p points -> contains (construct nth points) p = true) /\
  (NoDup points ->
   (forall a b, In a points -> In b points -> a <> b -> point_eq a b = false) ->
   m_size (construct nth points) = length points).
Proof.
  destruct (construct_inserts nth Hnth points) as (o & Ho & ->). split.
  - intros p Hp. apply contains_fold_in.
    exact (Permutation_in _ (Permutation_sym Ho) Hp).
  - intros Hn He. rewrite fold_size_fresh.
    + simpl. apply Permutation_length. exact Ho.
    + apply nodup_ordpairs.
      * exact (Permutation_NoDup (Permutation_sym Ho) Hn).
      * intros a c Ha Hc. apply He; eapply Permutation_in; eauto.
    + intros x y [].
Qed.

(** ** [range] reports stored points only, each at most as often as stored *)

Lemma submset_nil l : submset [] l.
Proof. exists l. reflexivity. Qed.

Lemma submset_refl l : submset l l.
Proof. exists []. rewrite app_nil_r. reflexivity. Qed.

Lemma submset_app a1 b1 a2 b2 :
  submset a1 b1 -> submset a2 b2 -> submset (a1 ++ a2) (b1 ++ b2).
Proof.
  intros [e1 H1] [e2 H2]. exists (e1 ++ e2).
  rewrite <- H1, <- H2. rewrite <- !app_assoc. apply Permutation_app_head.
  rewrite !app_assoc. apply Permutation_app_tail. apply Permutation_app_comm.
Qed.

Lemma submset_perm a b b' : Permutation b b' -> submset a b -> submset a b'.
Proof. intros Hp [e H]. exists e. rewrite H. exact Hp. Qed.

Lemma fpir_submset t acc rect :
  exists sel, findPointsInRectangle t acc rect = acc ++ sel /\ submset sel (elements t).
Proof.
  revert acc. induction t as [|l IHl q d r IHr]; intro acc; simpl.
  - exists []. rewrite app_nil_r. split; [reflexivity | apply submset_nil].
  - remember (if Nat.even d then Qle_bool (xmin rect) (x_coord q)
              else Qle_bool (ymin rect) (y_coord q)) as toLeft.
    remember (if Nat.even d then Qle_bool (x_coord q) (xmax rect)
              else Qle_bool (y_coord q) (ymax rect)) as toRight.
    set (a1 := if rect_contains rect q then acc ++ [q] else acc).
    assert (H1 : exists s1, a1 = acc ++ s1 /\ submset s1 [q]).
    { unfold a1. destruct (rect_contains rect q).
      - exists [q]. split; [reflexivity | apply submset_refl].
      - exists []. rewrite app_nil_r. split; [reflexivity | apply submset_nil]. }
    destruct H1 as (s1 & E1 & S1).
    set (a2 := if toLeft then findPointsInRectangle l a1 rect else a1).
    assert (H2 : exists s2, a2 = a1 ++ s2 /\ submset s2 (elements l)).
    { unfold a2. destruct toLeft.
      - exact (IHl a1).
      - exists []. rewrite app_nil_r. split; [reflexivity | apply submset_nil]. }
    destruct H2 as (s2 & E2 & S2).
    assert (H3 : exists s3, (if toRight then findPointsInRectangle r a2 rect else a2)
                            = a2 ++ s3 /\ submset s3 (elements r)).
    { destruct toRight.
      - exact (IHr a2).
      - exists []. rewrite app_nil_r. split; [reflexivity | apply submset_nil]. }
    destruct H3 as (s3 & E3 & S3).
    exists (s1 ++ s2 ++ s3). split.
    + rewrite E3, E2, E1. rewrite <- !app_assoc. reflexivity.
    + apply (submset_perm _ ([q] ++ elements l ++ elements r)).
      * simpl. apply Permutation_middle.
      * apply submset_app; [exact S1|]. apply submset_app; assumption.
Qed.

(** [range(R)] lists only stored points, and each no more often than it is
    stored: it is a sub-multiset of the points of the tree. *)
Theorem range_sub_multiset s rect :
  exists excl, Permutation (range s rect ++ excl) (elements (m_root s)).
Proof.
  destruct (fpir_submset (m_root s) [] rect) as (sel & E & S).
  unfold range. rewrite E. exact S.
Qed.

(** ** When the iteration of [kdtree::PointSet] ends *)

Lemma left_plug t up n up' : left t up = (n, up') -> plug n up' = plug t up.
Proof.
  revert up. induction t as [|l IHl q d r IHr]; intros up H; simpl in H.
  - congruence.
  - destruct l as [|ll lq ld lr]; [congruence|].
    rewrite (IHl _ H). reflexivity.
Qed.

Lemma climb_plug t up b n up' b' :
  climb t up b = (n, up', b') -> plug n up' = plug t up.
Proof.
  revert t b. induction up as [|[q d r|l q d] up IH]; intros t b H; simpl in H.
  - congruence.
  - congruence.
  - rewrite (IH _ _ H). reflexivity.
Qed.

Lemma next_plug b t up t' up' :
  next b (Some (t, up)) = Some (t', up') -> plug t' up' = plug t up.
Proof.
  intro H. unfold next in H. destruct t as [|l q d r]; [discriminate|].
  destruct r as [|rl rq rd rr].
  - destruct (climb (Node l q d Leaf) up b) as [[n upc] bc] eqn:Ec.
    apply climb_plug in Ec. rewrite <- Ec.
    destruct upc as [|[q' d' r'|l' q' d'] upc]; [destruct bc|..]; simpl in H;
      try discriminate; injection H as <- <-; reflexivity.
  - destruct (left (Node rl rq rd rr) (InRight l q d :: up)) as [n upl] eqn:El.
    injection H as <- <-. rewrite (left_plug _ _ _ _ El). reflexivity.
Qed.

(** [isRight] is read only at a root without a right child. *)
Lemma next_agree b1 b2 l q d r up :
  up <> [] \/ r <> Leaf ->
  next b1 (Some (Node l q d r, up)) = next b2 (Some (Node l q d r, up)).
Proof.
  intro H. unfold next. destruct r; [|reflexivity].
  destruct up as [|[] up]; [destruct H; congruence | reflexivity | reflexivity].
Qed.

Lemma iterate_agree T fuel it :
  match T with Leaf => True | Node _ _ _ r => r <> Leaf end ->
  match it with Some (t, up) => plug t up = T | None => True end ->
  iterate false fuel it = iterate true fuel it.
Proof.
  intro HT. revert it. induction fuel as [|fuel IH]; intros it Hp.
  - destruct it; reflexivity.
  - destruct it as [[t up]|]; [|reflexivity].
    destruct t as [|l q d r]; [reflexivity|].
    cbn [iterate deref].
    rewrite (next_agree false true l q d r up).
    + rewrite IH; [reflexivity|].
      destruct (next true (Some (Node l q d r, up))) as [[t' up']|] eqn:En; [|exact I].
      rewrite (next_plug _ _ _ _ _ En). exact Hp.
    + destruct up; [right; simpl in Hp; subst T; exact HT | left; discriminate].
Qed.

Lemma knn_agree T p k fuel it acc :
  match T with Leaf => True | Node _ _ _ r => r <> Leaf end ->
  match it with Some (t, up) => plug t up = T | None => True end ->
  knn_loop false p k fuel it acc = knn_loop true p k fuel it acc.
Proof.
  intro HT. revert it acc. induction fuel as [|fuel IH]; intros it acc Hp.
  - destruct it; reflexivity.
  - destruct it as [[t up]|]; [|reflexivity].
    destruct t as [|l q d r]; [reflexivity|].
    cbn [knn_loop deref].
    rewrite (next_agree false true l q d r up).
    + apply IH.
      destruct (next true (Some (Node l q d r, up))) as [[t' up']|] eqn:En; [|exact I].
      rewrite (next_plug _ _ _ _ _ En). exact Hp.
    + destruct up; [right; simpl in Hp; subst T; exact HT | left; discriminate].
Qed.

Lemma in_up_rest t up l0 q0 d0 :
  plug t up = Node l0 q0 d0 Leaf -> t <> Leaf -> up <> [] -> In q0 (up_rest up).
Proof.
  revert t. induction up as [|f up IH]; intros t Hp Ht Hu; [congruence|].
  destruct f as [q d r|l q d]; simpl in Hp |- *.
  - destruct up as [|f' up'].
    + simpl in Hp. injection Hp as _ -> _ _. left. reflexivity.
    + right. apply in_or_app. right. apply (IH _ Hp); discriminate.
  - destruct up as [|f' up'].
    + simpl in Hp. injection Hp as _ _ _ ->. contradiction.
    + apply (IH _ Hp); discriminate.
Qed.

Lemma iterate_stuck l0 q0 d0 fuel it :
  match it with
  | Some (t, up) => plug t up = Node l0 q0 d0 Leaf /\ t <> Leaf
  | None => False
  end ->
  iterate false fuel it = None.
Proof.
  revert it. induction fuel as [|fuel IH]; intros it Hp.
  - destruct it; [reflexivity | contradiction].
  - destruct it as [[t up]|]; [|contradiction]. destruct Hp as [Hp Ht].
    destruct t as [|l q d r]; [congruence|].
    destruct up as [|f up'].
    + simpl in Hp. injection Hp as -> -> -> ->.
      apply iterate_fixed; [reflexivity | discriminate].
    + cbn [iterate deref].
      rewrite (next_agree false true l q d r (f :: up')) by (left; discriminate).
      destruct (next_spec true l q d r (f :: up')) as [[Hv Hr] | [Hf _]];
        [|discriminate].
      destruct (next true (Some (Node l q d r, f :: up'))) as [[t' u']|] eqn:En.
      * rewrite IH; [reflexivity|]. split.
        -- rewrite (next_plug _ _ _ _ _ En). exact Hp.
        -- intros ->. exact Hv.
      * exfalso. cbn [ptr_rest] in Hr.
        assert (Hq : In q0 (up_rest (f :: up')))
          by (apply (in_up_rest _ _ _ _ _ Hp); discriminate).
        assert (Hq' : In q0 (elements r ++ up_rest (f :: up')))
          by (apply in_or_app; right; exact Hq).
        rewrite <- Hr in Hq'. contradiction.
Qed.

Lemma begin_plug s :
  match begin s with Some (t, up) => plug t up = m_root s | None => True end.
Proof.
  unfold begin. destruct (m_root s) as [|l q d r]; [exact I|].
  destruct (left (Node l q d r) []) as [n up] eqn:El.
  exact (left_plug _ _ _ _ El).
Qed.

Lemma traverse_ends b s :
  iteration_ends b (m_root s) -> traverse b s = Some (elements (m_root s)).
Proof.
  intros [-> | HT]; [exact (traverse_complete true s eq_refl)|].
  destruct b; [exact (traverse_complete true s eq_refl)|].
  rewrite <- (traverse_complete true s eq_refl). unfold traverse.
  apply (iterate_agree (m_root s)); [exact HT | apply begin_plug].
Qed.

(** The iteration [begin()..end()] of a [kdtree::PointSet] visits its points
    in in-order when [isRight] happens to be true, and also when it is false
    provided the root is null or has a right child. *)
Theorem iteration_in_order b s :
  iteration_ends b (m_root s) -> traverse b s = Some (elements (m_root s)).
Proof. exact (traverse_ends b s). Qed.

(** When [isRight] happens to be false and the root has no right child, the
    iteration [begin()..end()] never reaches [end()], however many steps it
    takes. *)
Theorem iteration_never_ends s l q d :
  m_root s = Node l q d Leaf -> forall fuel, iterate false fuel (begin s) = None.
Proof.
  intros Hr fuel. apply (iterate_stuck l q d). unfold begin. rewrite Hr.
  destruct (left (Node l q d Leaf) []) as [n up] eqn:El. split.
  - exact (left_plug _ _ _ _ El).
  - destruct (left_focus (Node l q d Leaf) [] ltac:(discriminate))
      as (q' & d' & r' & up' & F & _).
    rewrite El in F. injection F as -> _. discriminate.
Qed.

(** ** The k nearest neighbours *)

Lemma max_element_from_spec l p i li lg :
  exists m,
    ((i <= max_element_from l p i li lg)%nat /\
       nth_error l (max_element_from l p i li lg - i) = Some m
     \/ max_element_from l p i li lg = li /\ m = lg) /\
    sqdist lg p <= sqdist m p /\ (forall a, In a l -> sqdist a p <= sqdist m p).
Proof.
  revert i li lg. induction l as [|q l IH]; intros i li lg; simpl.
  - exists lg. split; [right; auto|]. split; [apply Qle_refl | intros a []].
  - destruct (Qle_bool (sqdist lg p) (sqdist q p)) eqn:E.
    + apply Qle_bool_iff in E.
      destruct (IH (S i) i q) as (m & Hj & H1 & H2).
      set (j := max_element_from l p (S i) i q) in *.
      exists m. split; [|split; [lra | intros a [<-|Ha]; [exact H1 | auto]]].
      left. destruct Hj as [[Hi Hn] | [-> ->]].
      * split; [lia|]. replace (j - i)%nat with (S (j - S i)) by lia. exact Hn.
      * split; [lia|]. rewrite Nat.sub_diag. reflexivity.
    + assert (E' : sqdist q p < sqdist lg p).
      { apply Qnot_le_lt. intro C. apply Qle_bool_iff in C. congruence. }
      destruct (IH (S i) li lg) as (m & Hj & H1 & H2).
      set (j := max_element_from l p (S i) li lg) in *.
      exists m. split; [|split; [exact H1 | intros a [<-|Ha]; [lra | auto]]].
      destruct Hj as [[Hi Hn] | [-> ->]].
      * left. split; [lia|]. replace (j - i)%nat with (S (j - S i)) by lia. exact Hn.
      * right. auto.
Qed.

Lemma max_element_spec l p :
  l <> [] ->
  exists m, nth_error l (max_element l p) = Some m /\
    (forall a, In a l -> sqdist a p <= sqdist m p).
Proof.
  intro Hl. destruct l as [|q l]; [congruence|]. unfold max_element.
  destruct (max_element_from_spec l p 1 0 q) as (m & Hj & H1 & H2).
  set (j := max_element_from l p 1 0 q) in *.
  exists m. split.
  - destruct Hj as [[Hi Hn] | [-> ->]]; [|reflexivity].
    replace j with (S (j - 1)) by lia. exact Hn.
  - intros a [<-|Ha]; [exact H1 | auto].
Qed.

Lemma replace_at_perm i x l m :
  nth_error l i = Some m -> Permutation (m :: replace_at i x l) (x :: l).
Proof.
  revert i. induction l as [|y l IH]; intros i H.
  - destruct i; discriminate.
  - destruct i as [|i]; simpl in H |- *.
    + injection H as ->. apply perm_swap.
    + etransitivity; [apply perm_swap|].
      etransitivity; [apply perm_skip, (IH _ H)|]. apply perm_swap.
Qed.

(** One step of the loop keeps the k closest points seen so far. *)
Lemma knn_step_inv p k acc excl seen q :
  Permutation (acc ++ excl) seen -> (length acc <= k)%nat ->
  ((length acc < k)%nat -> excl = []) ->
  (forall a x, In a acc -> In x excl -> sqdist a p <= sqdist x p) ->
  exists excl',
    Permutation (knn_step p k acc q ++ excl') (seen ++ [q]) /\
    (length (knn_step p k acc q) <= k)%nat /\
    ((length (knn_step p k acc q) < k)%nat -> excl' = []) /\
    (forall a x, In a (knn_step p k acc q) -> In x excl' -> sqdist a p <= sqdist x p) /\
    length (knn_step p k acc q) = Nat.min k (S (length acc)).
Proof.
  intros Hp Hk He Hd. unfold knn_step.
  destruct (Nat.ltb (length acc) k) eqn:Hlt.
  - apply Nat.ltb_lt in Hlt. rewrite (He Hlt) in Hp. rewrite app_nil_r in Hp.
    exists []. rewrite length_app. simpl. split; [|split; [lia|split; [auto|split]]].
    + rewrite app_nil_r. apply Permutation_app_tail. exact Hp.
    + intros a x _ [].
    + lia.
  - apply Nat.ltb_ge in Hlt. cbv zeta.
    destruct (nth_error acc (max_element acc p)) as [m|] eqn:Hm.
    + assert (Hne : acc <> []) by (intros ->; destruct (max_element [] p); discriminate).
      destruct (max_element_spec acc p Hne) as (m' & Hm' & Hmax).
      rewrite Hm in Hm'. injection Hm' as <-.
      assert (HmIn : In m acc) by exact (nth_error_In _ _ Hm).
      destruct (Qltb (sqdist q p) (sqdist m p)) eqn:Hq.
      * apply Qltb_iff in Hq.
        pose proof (replace_at_perm _ q _ _ Hm) as Hr.
        pose proof (Permutation_length Hr) as Hlen. simpl in Hlen.
        exists (m :: excl). split; [|split; [lia|split; [lia|split]]].
        -- etransitivity; [apply Permutation_sym, Permutation_middle|].
           etransitivity; [apply (Permutation_app_tail excl Hr)|]. simpl.
           etransitivity; [apply perm_skip, Hp|]. apply Permutation_cons_append.
        -- intros a x Ha Hx.
           assert (Ha' : In a (q :: acc))
             by (apply (Permutation_in _ Hr); right; exact Ha).
           destruct Ha' as [<-|Ha'], Hx as [<-|Hx].
           ++ lra.
           ++ pose proof (Hd m x HmIn Hx). lra.
           ++ apply Hmax; exact Ha'.
           ++ apply Hd; assumption.
        -- lia.
      * assert (Hq' : sqdist m p <= sqdist q p).
        { apply Qnot_lt_le. intro C. apply Qltb_iff in C. congruence. }
        exists (q :: excl). split; [|split; [lia|split; [lia|split]]].
        -- etransitivity; [apply Permutation_sym, Permutation_middle|]. simpl.
           etransitivity; [apply perm_skip, Hp|]. apply Permutation_cons_append.
        -- intros a x Ha [<-|Hx].
           ++ pose proof (Hmax a Ha). lra.
           ++ apply Hd; assumption.
        -- lia.
    + destruct acc as [|a0 acc0].
      * exists (q :: excl). simpl in Hp, Hlt |- *. split; [|split; [lia|split; [lia|split]]].
        -- etransitivity; [apply perm_skip, Hp|]. apply Permutation_cons_append.
        -- intros a x [].
        -- lia.
      * exfalso. destruct (max_element_spec (a0 :: acc0) p ltac:(discriminate))
          as (m' & Hm' & _). congruence.
Qed.

Lemma knn_fold_inv p k l acc excl seen :
  Permutation (acc ++ excl) seen -> (length acc <= k)%nat ->
  ((length acc < k)%nat -> excl = []) ->
  (forall a x, In a acc -> In x excl -> sqdist a p <= sqdist x p) ->
  length (fold_left (knn_step p k) l acc) = Nat.min k (length acc + length l) /\
  exists excl',
    Permutation (fold_left (knn_step p k) l acc ++ excl') (seen ++ l) /\
    (forall a x, In a (fold_left (knn_step p k) l acc) -> In x excl' ->
       sqdist a p <= sqdist x p).
Proof.
  revert acc excl seen. induction l as [|q l IH]; intros acc excl seen Hp Hk He Hd.
  - simpl. split; [lia|]. exists excl. rewrite app_nil_r. auto.
  - cbn [fold_left].
    destruct (knn_step_inv p k acc excl seen q Hp Hk He Hd)
      as (excl1 & Hp1 & Hk1 & He1 & Hd1 & Hl1).
    destruct (IH _ _ _ Hp1 Hk1 He1 Hd1) as [Hl (excl' & Hp' & Hd')].
    split; [rewrite Hl, Hl1; simpl; lia|].
    exists excl'. rewrite <- app_assoc in Hp'. auto.
Qed.

Lemma rb_nearest_k_spec elems p k :
  length (rb_nearest_k elems p k) = Nat.min k (length elems) /\
  exists excl, Permutation (rb_nearest_k elems p k ++ excl) elems /\
    (forall a x, In a (rb_nearest_k elems p k) -> In x excl ->
       sqdist a p <= sqdist x p).
Proof.
  unfold rb_nearest_k. destruct (Nat.leb_spec (length elems) k).
  - split; [lia|]. exists []. rewrite app_nil_r. split; [reflexivity | intros a x _ []].
  - destruct (Nat.eqb_spec k 0).
    + subst k. split; [reflexivity|]. exists elems. split; [reflexivity | intros a x []].
    + destruct (knn_fold_inv p k elems [] [] [] ltac:(reflexivity) ltac:(simpl; lia)
        ltac:(reflexivity) ltac:(intros a x [])) as [Hl (excl & Hp & Hd)].
      split; [exact Hl|]. exists excl. auto.
Qed.

Lemma nearest_k_ends b nth (Hnth : forall cmp middle points,
  Permutation (nth cmp middle points) points) s p k :
  reachable b nth s -> iteration_ends b (m_root s) ->
  nearest_k b s p k = Some (rb_nearest_k (elements (m_root s)) p k).
Proof.
  intros Hr He. destruct (reachable_wf _ _ Hnth _ Hr) as (_ & _ & _ & Hsz).
  unfold nearest_k, rb_nearest_k. rewrite elements_length, <- Hsz.
  destruct (Nat.leb (m_size s) k); [exact (traverse_ends b s He)|].
  destruct (Nat.eqb k 0); [reflexivity|].
  assert (H : knn_loop true p k (S (m_size s)) (begin s) [] =
              Some (fold_left (knn_step p k) (elements (m_root s)) [])).
  { rewrite Hsz. destruct (begin_spec s) as [Hv Hb]. rewrite <- Hb.
    apply knn_loop_complete; [reflexivity | exact Hv |].
    rewrite Hb, elements_length. lia. }
  destruct He as [-> | HT]; [exact H|]. destruct b; [exact H|].
  rewrite (knn_agree (m_root s)); [exact H | exact HT | apply begin_plug].
Qed.

(** [rbtree::PointSet::nearest(p, k)] returns [min(k, size)] of the visited
    points, and none of the points it leaves out is strictly closer to [p]
    than a point it returns. *)
Theorem rb_nearest_k_closest elems p k :
  length (rb_nearest_k elems p k) = Nat.min k (length elems) /\
  exists excl, Permutation (rb_nearest_k elems p k ++ excl) elems /\
    (forall a x, In a (rb_nearest_k elems p k) -> In x excl ->
       ~ sqdist x p < sqdist a p).
Proof.
  destruct (rb_nearest_k_spec elems p k) as [Hl (excl & Hp & Hd)].
  split; [exact Hl|]. exists excl. split; [exact Hp|].
  intros a x Ha Hx. apply Qle_not_lt, Hd; assumption.
Qed.

(** When its iteration ends, [kdtree::PointSet::nearest(p, k)] returns what
    the [rbtree] version returns on the in-order sequence of the tree:
    [min(k, size())] points of the set, none of the others strictly closer to
    [p] than one of them. *)
Theorem nearest_k_closest b nth (Hnth : forall cmp middle points,
  Permutation (nth cmp middle points) points) s p k :
  reachable b nth s -> iteration_ends b (m_root s) ->
  exists res, nearest_k b s p k = Some res /\
    res = rb_nearest_k (elements (m_root s)) p k /\
    length res = Nat.min k (m_size s) /\
    exists excl, Permutation (res ++ excl) (elements (m_root s)) /\
      (forall a x, In a res -> In x excl -> ~ sqdist x p < sqdist a p).
Proof.
  intros Hr He. exists (rb_nearest_k (elements (m_root s)) p k).
  split; [exact (nearest_k_ends b nth Hnth s p k Hr He)|]. split; [reflexivity|].
  destruct (reachable_wf _ _ Hnth _ Hr) as (_ & _ & _ & Hsz).
  destruct (rb_nearest_k_spec (elements (m_root s)) p k) as [Hl (excl & Hp & Hd)].
  split; [rewrite Hl, elements_length, Hsz; reflexivity|].
  exists excl. split; [exact Hp|].
  intros a x Ha Hx. apply Qle_not_lt, Hd; assumption.
Qed.

(** ** The nearest point of [rbtree::PointSet] *)

Lemma min_element_from_min l p s :
  In (min_element_from l p s) (s :: l) /\
  (forall x, In x (s :: l) -> sqdist (min_element_from l p s) p <= sqdist x p).
Proof.
  revert s. induction l as [|q l IH]; intro s; simpl.
  - split; [left; reflexivity | intros x [<-|[]]; apply Qle_refl].
  - destruct (Qltb (sqdist q p) (sqdist s p)) eqn:E.
    + apply Qltb_iff in E. destruct (IH q) as [Hin Hmin].
      split; [right; exact Hin|].
      intros x [<-|Hx]; [|apply Hmin; exact Hx].
      pose proof (Hmin q (or_introl eq_refl)). lra.
    + assert (E' : sqdist s p <= sqdist q p).
      { apply Qnot_lt_le. intro C. apply Qltb_iff in C. congruence. }
      destruct (IH s) as [Hin Hmin].
      split; [destruct Hin as [<-|Hin]; [left; reflexivity | right; right; exact Hin]|].
      intros x [<-|[<-|Hx]].
      * apply Hmin. left. reflexivity.
      * pose proof (Hmin s (or_introl eq_refl)). lra.
      * apply Hmin. right. exact Hx.
Qed.

Lemma min_element_from_first l p s :
  exists pre post, s :: l = pre ++ min_element_from l p s :: post /\
    (forall x, In x pre -> sqdist (min_element_from l p s) p < sqdist x p).
Proof.
  revert s. induction l as [|q l IH]; intro s; simpl.
  - exists [], []. split; [reflexivity | intros x []].
  - destruct (Qltb (sqdist q p) (sqdist s p)) eqn:E.
    + apply Qltb_iff in E. destruct (IH q) as (pre & post & Heq & Hpre).
      exists (s :: pre), post. split; [simpl; rewrite <- Heq; reflexivity|].
      intros x [<-|Hx]; [|apply Hpre; exact Hx].
      pose proof (proj2 (min_element_from_min l p q) q (or_introl eq_refl)). lra.
    + assert (E' : sqdist s p <= sqdist q p).
      { apply Qnot_lt_le. intro C. apply Qltb_iff in C. congruence. }
      destruct (IH s) as (pre & post & Heq & Hpre).
      destruct pre as [|s' pre]; simpl in Heq.
      * injection Heq as Hm Hl. exists [], (q :: l).
        split; [simpl; rewrite <- Hm; reflexivity | intros x []].
      * injection Heq as Hs Hl. subst s'.
        exists (s :: q :: pre), post. split; [simpl; congruence|].
        pose proof (Hpre s (or_introl eq_refl)).
        intros x [<-|[<-|Hx]]; [exact H | lra | apply Hpre; right; exact Hx].
Qed.

(** [rbtree::PointSet::nearest(point)] has no defined result exactly on an
    empty sequence; otherwise it returns the first of the visited points at
    the smallest distance from [point]. *)
Theorem rb_nearest_first_closest elems p :
  (rb_nearest elems p = None <-> elems = []) /\
  (elems <> [] ->
   exists m, rb_nearest elems p = Some (Some m) /\ In m elems /\
     (forall x, In x elems -> sqdist m p <= sqdist x p) /\
     exists pre post, elems = pre ++ m :: post /\
       (forall x, In x pre -> sqdist m p < sqdist x p)).
Proof.
  destruct elems as [|q l].
  - split; [split; reflexivity | intro H; congruence].
  - split; [split; discriminate|]. intros _.
    exists (min_element_from l p q). split; [reflexivity|].
    destruct (min_element_from_min l p q) as [Hin Hmin].
    split; [exact Hin|]. split; [exact Hmin|].
    exact (min_element_from_first l p q).
Qed.

(** On the same points, [kdtree::PointSet::nearest] and
    [rbtree::PointSet::nearest] both return a point of the set, and the two
    are at the same distance from the query point. *)
Theorem nearest_same_distance b nth (Hnth : forall cmp middle points,
  Permutation (nth cmp middle points) points) s elems q :
  reachable b nth s -> empty s = false ->
  (forall x, In x elems <-> In x (elements (m_root s))) ->
  exists p1 p2, nearest s q = Some (Some p1) /\ rb_nearest elems q = Some (Some p2) /\
    In p1 elems /\ In p2 elems /\ sqdist p1 q == sqdist p2 q.
Proof.
  intros Hr He Hel. destruct (reachable_wf _ _ Hnth _ Hr) as (_ & Hk & _).
  unfold empty in He. unfold nearest.
  destruct (m_root s) as [|l c d r] eqn:Er; [discriminate|].
  destruct (findNeighbour_spec (Node l c d r) q c Hk) as (Hin & _ & Hall).
  set (f := findNeighbour (Node l c d r) q c) in *.
  assert (Hf : In f (elements (Node l c d r))).
  { destruct Hin as [-> | Hin]; [|exact Hin].
    simpl. apply in_or_app. right. left. reflexivity. }
  destruct elems as [|e l'].
  - exfalso. apply (proj2 (Hel f)). exact Hf.
  - destruct (min_element_from_min l' q e) as [Hm Hmin].
    exists f, (min_element_from l' q e). split; [reflexivity|]. split; [reflexivity|].
    split; [apply (proj2 (Hel f)); exact Hf|]. split; [exact Hm|].
    apply Qle_antisym.
    + apply Hall. apply (proj1 (Hel _)). exact Hm.
    + apply Hmin. apply (proj2 (Hel f)). exact Hf.
Qed.

Lemma rect_intersects_iff_common_point_witness :
  rect_ok (mkRect (mkPoint 0 0) (mkPoint 2 2)) /\
  rect_ok (mkRect (mkPoint 1 1) (mkPoint 3 3)) /\
  (rect_intersects (mkRect (mkPoint 0 0) (mkPoint 2 2)) (mkRect (mkPoint 1 1) (mkPoint 3 3))
     = true <->
   exists p, in_box (mkRect (mkPoint 0 0) (mkPoint 2 2)) p /\
             in_box (mkRect (mkPoint 1 1) (mkPoint 3 3)) p).
Proof.
  assert (H1 : rect_ok (mkRect (mkPoint 0 0) (mkPoint 2 2)))
    by (unfold rect_ok, xmin, xmax, ymin, ymax; simpl; split; lra).
  assert (H2 : rect_ok (mkRect (mkPoint 1 1) (mkPoint 3 3)))
    by (unfold rect_ok, xmin, xmax, ymin, ymax; simpl; split; lra).
  split; [exact H1|]. split; [exact H2|].
  exact (proj2 (rect_intersects_iff_common_point
    (mkRect (mkPoint 0 0) (mkPoint 2 2)) (mkRect (mkPoint 1 1) (mkPoint 3 3))) H1 H2).
Defined.

Lemma empty_iff_size_zero_witness :
  reachable true nth_element_sort two_points /\
  (empty two_points = true <-> m_size two_points = 0%nat).
Proof.
  split; [exact (two_points_reachable _ _)|].
  exact (empty_iff_size_zero true nth_element_sort nth_element_sort_perm two_points
    (two_points_reachable _ _)).
Defined.

Lemma construct_contains_and_size_witness :
  NoDup [mkPoint 0 0; mkPoint 0 5] /\
  m_size (construct nth_element_sort [mkPoint 0 0; mkPoint 0 5]) = 2%nat.
Proof.
  assert (Hd : NoDup [mkPoint 0 0; mkPoint 0 5]).
  { constructor; [intros [H|[]]; discriminate H|].
    constructor; [intros []|constructor]. }
  split; [exact Hd|].
  apply (proj2 (construct_contains_and_size nth_element_sort nth_element_sort_perm
    [mkPoint 0 0; mkPoint 0 5]) Hd).
  intros a b' Ha Hb Hab. simpl in Ha, Hb.
  destruct Ha as [<-|[<-|[]]], Hb as [<-|[<-|[]]];
    try (exfalso; apply Hab; reflexivity); vm_compute; reflexivity.
Defined.

Lemma iteration_in_order_witness :
  iteration_ends false
    (m_root (insert_root (insert_root empty_set (mkPoint 0 0)) (mkPoint 1 0))) /\
  traverse false (insert_root (insert_root empty_set (mkPoint 0 0)) (mkPoint 1 0)) =
    Some (elements
      (m_root (insert_root (insert_root empty_set (mkPoint 0 0)) (mkPoint 1 0)))).
Proof.
  assert (H : iteration_ends false
    (m_root (insert_root (insert_root empty_set (mkPoint 0 0)) (mkPoint 1 0))))
    by (right; vm_compute; intro E; discriminate E).
  split; [exact H|].
  exact (iteration_in_order false _ H).
Defined.

Lemma iteration_never_ends_witness :
  m_root two_points = Node (Node Leaf (mkPoint 0 5) 1 Leaf) (mkPoint 0 0) 0 Leaf /\
  forall fuel, iterate false fuel (begin two_points) = None.
Proof.
  split; [reflexivity|].
  apply (iteration_never_ends two_points (Node Leaf (mkPoint 0 5) 1 Leaf) (mkPoint 0 0) 0).
  reflexivity.
Defined.

Lemma nearest_k_closest_witness :
  reachable true nth_element_sort two_points /\
  iteration_ends true (m_root two_points) /\
  exists res, nearest_k true two_points (mkPoint 0 4) 1 = Some res /\
    res = rb_nearest_k (elements (m_root two_points)) (mkPoint 0 4) 1 /\
    length res = Nat.min 1 (m_size two_points) /\
    exists excl, Permutation (res ++ excl) (elements (m_root two_points)) /\
      (forall a x, In a res -> In x excl ->
         ~ sqdist x (mkPoint 0 4) < sqdist a (mkPoint 0 4)).
Proof.
  split; [exact (two_points_reachable _ _)|].
  assert (H : iteration_ends true (m_root two_points)) by (left; reflexivity).
  split; [exact H|].
  exact (nearest_k_closest true nth_element_sort nth_element_sort_perm two_points
    (mkPoint 0 4) 1 (two_points_reachable _ _) H).
Defined.

Lemma rb_nearest_first_closest_witness :
  [mkPoint 0 5; mkPoint 0 0] <> [] /\
  exists m, rb_nearest [mkPoint 0 5; mkPoint 0 0] (mkPoint 0 1) = Some (Some m) /\
    In m [mkPoint 0 5; mkPoint 0 0] /\
    (forall x, In x [mkPoint 0 5; mkPoint 0 0] ->
       sqdist m (mkPoint 0 1) <= sqdist x (mkPoint 0 1)) /\
    exists pre post, [mkPoint 0 5; mkPoint 0 0] = pre ++ m :: post /\
      (forall x, In x pre -> sqdist m (mkPoint 0 1) < sqdist x (mkPoint 0 1)).
Proof.
  assert (H : [mkPoint 0 5; mkPoint 0 0] <> []) by discriminate.
  split; [exact H|].
  exact (proj2 (rb_nearest_first_closest [mkPoint 0 5; mkPoint 0 0] (mkPoint 0 1)) H).
Defined.

Lemma nearest_same_distance_witness :
  reachable true nth_element_sort two_points /\ empty two_points = false /\
  (forall x, In x [mkPoint 0 0; mkPoint 0 5] <-> In x (elements (m_root two_points))) /\
  exists p1 p2, nearest two_points (mkPoint 0 4) = Some (Some p1) /\
    rb_nearest [mkPoint 0 0; mkPoint 0 5] (mkPoint 0 4) = Some (Some p2) /\
    In p1 [mkPoint 0 0; mkPoint 0 5] /\ In p2 [mkPoint 0 0; mkPoint 0 5] /\
    sqdist p1 (mkPoint 0 4) == sqdist p2 (mkPoint 0 4).
Proof.
  assert (He : empty two_points = false) by reflexivity.
  assert (Hel : forall x, In x [mkPoint 0 0; mkPoint 0 5] <->
                          In x (elements (m_root two_points))).
  { intro x. change (elements (m_root two_points)) with [mkPoint 0 5; mkPoint 0 0].
    simpl. tauto. }
  split; [exact (two_points_reachable _ _)|]. split; [exact He|]. split; [exact Hel|].
  exact (nearest_same_distance true nth_element_sort nth_element_sort_perm two_points
    [mkPoint 0 0; mkPoint 0 5] (mkPoint 0 4) (two_points_reachable _ _) He Hel).
Defined.
